(** * Portfolio site controller (js/main.js): a shallow embedding

    The page script consists of two classes.  [PortfolioSite] keeps the
    active language, the loaded blog posts and the mobile-navigation flag
    and mirrors them into the document; [AnimationObserver] reveals cards
    the first time they scroll into view.

    The embedding follows the script method by method.  The browser
    objects the script touches (document, localStorage, navigator,
    console, the fetch queue) are fields of one explicit [World] record
    that every method transforms.  Exceptions (a rejected fetch, the
    script's own [throw], a JSON syntax error) live in a small
    state-and-exception monad so that [try]/[catch] reads as in the
    source. *)

From Stdlib Require Import Ascii String.
From stdpp Require Import base option strings list gmap pretty.

(** ** JavaScript values and coercions *)

Module Js.

(** The values a language variable can hold in the script: a string, or
    [undefined] (for instance [dataset.lang] of an element without a
    [data-lang] attribute). *)
Inductive Val : Type :=
| undefined
| str (s : string).

#[global] Instance Val_eq_dec : EqDecision Val.
Proof. solve_decision. Defined.

(** [x === y] on these values. *)
Definition strict_eq (x y : Val) : bool := bool_decide (x = y).

(** ToString, as applied by property access, [setItem] and DOMString
    attribute setters. *)
Definition toString (v : Val) : string :=
  match v with
  | undefined => "undefined"
  | str s => s
  end.

(** Reading a property that may be missing. *)
Definition of_option (o : option string) : Val :=
  match o with
  | Some s => str s
  | None => undefined
  end.

(** Truthiness, for the kinds of value the script tests. *)
Class Truthy (A : Type) := truthy : A → bool.

#[global] Instance truthy_string : Truthy string :=
  λ s, match s with EmptyString => false | String _ _ => true end.
#[global] Instance truthy_N : Truthy N :=
  λ n, negb (N.eqb n 0).
#[global] Instance truthy_option `{Truthy A} : Truthy (option A) :=
  λ o, match o with Some a => truthy a | None => false end.

(** [x || d] where [x] is a possibly missing string and [d] a string. *)
Definition or_else (x : option string) (d : string) : string :=
  match x with
  | Some s => if truthy s then s else d
  | None => d
  end.

(** [s.split(sep)] for a one-character separator. *)
Fixpoint split (sep : ascii) (s : string) : list string :=
  match s with
  | EmptyString => [EmptyString]
  | String c rest =>
      if bool_decide (c = sep) then EmptyString :: split sep rest
      else match split sep rest with
           | [] => [String c EmptyString]
           | piece :: pieces => String c piece :: pieces
           end
  end.

(** [arr.includes(x)] where [x] may be [undefined]. *)
Definition includes (arr : list string) (x : option string) : bool :=
  match x with
  | Some s => bool_decide (s ∈ arr)
  | None => false
  end.

(** [arr.join('')]. *)
Definition join (pieces : list string) : string :=
  foldr String.append EmptyString pieces.

End Js.

Import Js.

(** ** Data *)

(** A title or excerpt as the schema of the post data has it: a plain
    string, or an object of strings keyed by language code.  Values of
    other types are the subject of [Dynamic] below. *)
Inductive LocalizedText : Type :=
| Plain (s : string)
| Translations (entries : gmap string string).

(** A blog post as the renderer reads it.  The fields [id], [tags] and
    [published] of the JSON schema are never read by the script and are
    left out.  [readTime] stands for a JavaScript number: the integers up
    to 2^53 - 1, which the language holds exactly and prints digit by
    digit. *)
Record BlogPost : Type := mkPost {
  title : LocalizedText;
  date : string;
  excerpt : LocalizedText;
  url : string;
  readTime : option N
}.

(** A document element, as far as the script looks at it.  Each element
    is taken by itself: [textContent] is its text as a string, and an
    element nested in another one is not represented as its child. *)
Record Element : Type := mkElement {
  classList : gset string;
  dataset : gmap string string;
  textContent : string;
  placeholder : string
}.

(** Exceptions that reach the [catch] of [loadBlogPosts]: a rejected
    fetch, a body that is not JSON, the script's own [Error], and the
    TypeError of reading a property of [null]. *)
Inductive Exn : Type :=
| FetchTypeError
| JsonSyntaxError
| Error (message : string)
| PropertyOfNull.

Inductive ConsoleEntry : Type :=
| Warn (message : string) (error : Exn).

(** The controller instance together with the browser state it reads and
    writes. *)
Record World : Type := mkWorld {
  (* fields of the PortfolioSite instance *)
  currentLanguage : Val;
  blogPosts : list BlogPost;
  mobileNavOpen : bool;
  (* browser environment *)
  localStorage : gmap string string;
  navigator_language : string;
  (* document *)
  documentElement_lang : string;
  document_title : string;
  metaDescription : option string;
  elements : list Element;
  blogContainer : option string;
  (* observable effects *)
  console : list ConsoleEntry;
  requests : list string
}.

Definition set_currentLanguage (v : Val) (w : World) : World :=
  mkWorld v (blogPosts w) (mobileNavOpen w) (localStorage w)
    (navigator_language w) (documentElement_lang w) (document_title w)
    (metaDescription w) (elements w) (blogContainer w) (console w)
    (requests w).

Definition set_blogPosts (l : list BlogPost) (w : World) : World :=
  mkWorld (currentLanguage w) l (mobileNavOpen w) (localStorage w)
    (navigator_language w) (documentElement_lang w) (document_title w)
    (metaDescription w) (elements w) (blogContainer w) (console w)
    (requests w).

Definition set_localStorage (m : gmap string string) (w : World) : World :=
  mkWorld (currentLanguage w) (blogPosts w) (mobileNavOpen w) m
    (navigator_language w) (documentElement_lang w) (document_title w)
    (metaDescription w) (elements w) (blogContainer w) (console w)
    (requests w).

Definition set_documentElement_lang (s : string) (w : World) : World :=
  mkWorld (currentLanguage w) (blogPosts w) (mobileNavOpen w)
    (localStorage w) (navigator_language w) s (document_title w)
    (metaDescription w) (elements w) (blogContainer w) (console w)
    (requests w).

Definition set_document_title (s : string) (w : World) : World :=
  mkWorld (currentLanguage w) (blogPosts w) (mobileNavOpen w)
    (localStorage w) (navigator_language w) (documentElement_lang w) s
    (metaDescription w) (elements w) (blogContainer w) (console w)
    (requests w).

Definition set_metaDescription (c : option string) (w : World) : World :=
  mkWorld (currentLanguage w) (blogPosts w) (mobileNavOpen w)
    (localStorage w) (navigator_language w) (documentElement_lang w)
    (document_title w) c (elements w) (blogContainer w) (console w)
    (requests w).

Definition set_elements (els : list Element) (w : World) : World :=
  mkWorld (currentLanguage w) (blogPosts w) (mobileNavOpen w)
    (localStorage w) (navigator_language w) (documentElement_lang w)
    (document_title w) (metaDescription w) els (blogContainer w)
    (console w) (requests w).

Definition set_blogContainer (html : option string) (w : World) : World :=
  mkWorld (currentLanguage w) (blogPosts w) (mobileNavOpen w)
    (localStorage w) (navigator_language w) (documentElement_lang w)
    (document_title w) (metaDescription w) (elements w) html (console w)
    (requests w).

Definition set_console (c : list ConsoleEntry) (w : World) : World :=
  mkWorld (currentLanguage w) (blogPosts w) (mobileNavOpen w)
    (localStorage w) (navigator_language w) (documentElement_lang w)
    (document_title w) (metaDescription w) (elements w) (blogContainer w)
    c (requests w).

Definition set_requests (r : list string) (w : World) : World :=
  mkWorld (currentLanguage w) (blogPosts w) (mobileNavOpen w)
    (localStorage w) (navigator_language w) (documentElement_lang w)
    (document_title w) (metaDescription w) (elements w) (blogContainer w)
    (console w) r.

(** ** Language switching *)

(** [el.classList.toggle(name, force)]. *)
Definition classList_toggle (name : string) (force : bool) (el : Element)
  : Element :=
  mkElement (if force then {[name]} ∪ classList el
             else classList el ∖ {[name]})
    (dataset el) (textContent el) (placeholder el).

Definition set_textContent (t : string) (el : Element) : Element :=
  mkElement (classList el) (dataset el) t (placeholder el).

Definition set_placeholder (p : string) (el : Element) : Element :=
  mkElement (classList el) (dataset el) (textContent el) p.

(** [querySelectorAll(sel).forEach(f)] over the document's elements: [f]
    is applied to the elements the selector matches, in document order. *)
Definition forEach_matching (sel : Element → bool) (f : Element → Element)
  (w : World) : World :=
  set_elements (map (λ el, if sel el then f el else el) (elements w)) w.

Definition titles : gmap string string :=
  {[ "en" := "Tom S. - Software Engineer";
     "fr" := "Tom S. - Ingénieur Logiciel" ]}.

Definition descriptions : gmap string string :=
  {[ "en" := "Tom S. - Software Engineer Portfolio. Explore my projects, blog posts, and get in touch.";
     "fr" := "Tom S. - Portfolio d'Ingénieur Logiciel. Explorez mes projets, articles de blog et contactez-moi." ]}.

(** Elements are modelled by their [dataset], so the attribute selector
    [[data-L-placeholder]] is read as "the dataset has the key
    [LPlaceholder]".  The two coincide for language codes written in
    lower-case letters, which covers every code used below. *)
Definition updateTranslations (w : World) : World :=
  let lang := toString (currentLanguage w) in
  let w :=
    forEach_matching
      (λ el, bool_decide (is_Some (dataset el !! "en"))
             || bool_decide (is_Some (dataset el !! "fr")))
      (λ el, let translation := dataset el !! lang in
             if truthy translation
             then set_textContent (default "" translation) el
             else el) w in
  let w :=
    forEach_matching
      (λ el, bool_decide (is_Some (dataset el !! (lang +:+ "Placeholder"))))
      (λ el, let placeholder := dataset el !! (lang +:+ "Placeholder") in
             if truthy placeholder
             then set_placeholder (default "" placeholder) el
             else el) w in
  let w := set_document_title (toString (of_option (titles !! lang))) w in
  match metaDescription w with
  | Some _ =>
      set_metaDescription
        (Some (toString (of_option (descriptions !! lang)))) w
  | None => w
  end.

Definition switchLanguage (lang : Val) (w : World) : World :=
  if strict_eq lang (currentLanguage w) then w else
  let w := set_currentLanguage lang w in
  let w :=
    forEach_matching
      (λ el, bool_decide ("lang-btn" ∈ classList el))
      (λ btn, classList_toggle "active"
                (strict_eq (of_option (dataset btn !! "lang")) lang) btn)
      w in
  let w := updateTranslations w in
  let w :=
    set_localStorage
      (<["preferredLanguage" := toString lang]> (localStorage w)) w in
  set_documentElement_lang (toString lang) w.

(** The language chosen by [handleInitialLanguage] from the stored value
    ([null] when the key is absent) and [navigator.language]. *)
Definition initialLang (storedLang : option string) (language : string)
  : string :=
  let browserLang := head (split "-" language) in
  if truthy storedLang && includes ["en"; "fr"] storedLang
  then default "" storedLang
  else if includes ["fr"] browserLang
       then default "" browserLang
       else "en".

Definition handleInitialLanguage (w : World) : World :=
  let storedLang := localStorage w !! "preferredLanguage" in
  switchLanguage (str (initialLang storedLang (navigator_language w))) w.

(** The click listener installed on every [.lang-btn] by
    [setupEventListeners]; [target] is the event's target element. *)
Definition langButtonClick (target : Element) (w : World) : World :=
  switchLanguage (of_option (dataset target !! "lang")) w.

(** The state the constructor leaves in the instance fields, on a given
    page. *)
Definition constructed (w : World) : World :=
  mkWorld (str "en") [] false (localStorage w) (navigator_language w)
    (documentElement_lang w) (document_title w) (metaDescription w)
    (elements w) (blogContainer w) (console w) (requests w).

(** ** Blog rendering *)

(** [getTranslatedText(text)]: the script reads [this.currentLanguage].
    This is the function on texts of the schema; the lookup finds own
    entries, which is all there is to find unless the language is the
    name of a member every object inherits ([Dynamic.getTranslatedText]
    has those, and the texts of other types). *)
Definition getTranslatedText (w : World) (text : LocalizedText) : string :=
  match text with
  | Plain s => s
  | Translations entries =>
      or_else (entries !! toString (currentLanguage w))
        (or_else (entries !! "en") "")
  end.

Definition dq : string := String "034"%char EmptyString.
Definition nl : string := String "010"%char EmptyString.

Fixpoint spaces (n : nat) : string :=
  match n with
  | O => EmptyString
  | S n' => String " "%char (spaces n')
  end.

(** One line of a template literal: the line break, the indentation and
    the text. *)
Definition line (indent : nat) (text : string) : string :=
  nl +:+ spaces indent +:+ text.

Definition attr (name value : string) : string :=
  name +:+ "=" +:+ dq +:+ value +:+ dq.

Definition placeholderPosts : list BlogPost :=
  [ mkPost
      (Translations
         {[ "en" := "Getting Started with Modern Web Development";
            "fr" := "Débuter avec le Développement Web Moderne" ]})
      "2024-01-15"
      (Translations
         {[ "en" := "A comprehensive guide to modern web development tools and practices that every developer should know.";
            "fr" := "Un guide complet des outils et pratiques de développement web moderne que tout développeur devrait connaître." ]})
      "#" (Some 5%N);
    mkPost
      (Translations
         {[ "en" := "Building Scalable React Applications";
            "fr" := "Construire des Applications React Évolutives" ]})
      "2024-01-08"
      (Translations
         {[ "en" := "Learn best practices for building React applications that scale with your business needs.";
            "fr" := "Apprenez les meilleures pratiques pour construire des applications React qui évoluent avec vos besoins commerciaux." ]})
      "#" (Some 8%N);
    mkPost
      (Translations
         {[ "en" := "The Future of JavaScript";
            "fr" := "L'Avenir de JavaScript" ]})
      "2024-01-01"
      (Translations
         {[ "en" := "Exploring upcoming JavaScript features and how they will change the way we write code.";
            "fr" := "Explorer les fonctionnalités JavaScript à venir et comment elles changeront notre façon d'écrire du code." ]})
      "#" (Some 6%N) ].

(** The meta-line suffix: [post.readTime ? `• ${post.readTime} min read` : '']. *)
Definition readTimeSuffix (post : BlogPost) : string :=
  if truthy (readTime post)
  then "• " +:+ pretty (default 0%N (readTime post)) +:+ " min read"
  else "".

Section Rendering.

(** [new Date(d).toLocaleDateString(locale, {year: 'numeric', month:
    'long', day: 'numeric'})] is supplied by the platform. *)
Variable toLocaleDateString : string → string → string.

Definition formatDate (w : World) (dateString : string) : string :=
  let locale :=
    if strict_eq (currentLanguage w) (str "fr") then "fr-FR" else "en-US" in
  toLocaleDateString locale dateString.

(** The body shared by the two card templates; [anchor] is the opening
    tag of the title link, the only line in which they differ. *)
Definition article (anchor : string) (w : World) (post : BlogPost)
  : string :=
  line 12 ("<article " +:+ attr "class" "blog-post" +:+ ">")
  +:+ line 16 ("<h3 " +:+ attr "class" "blog-post-title" +:+ ">")
  +:+ line 20 anchor
  +:+ line 24 (getTranslatedText w (title post))
  +:+ line 20 "</a>"
  +:+ line 16 "</h3>"
  +:+ line 16 ("<div " +:+ attr "class" "blog-post-meta" +:+ ">")
  +:+ line 20 ("<time " +:+ attr "datetime" (date post) +:+ ">"
               +:+ formatDate w (date post) +:+ "</time>")
  +:+ line 20 (readTimeSuffix post)
  +:+ line 16 "</div>"
  +:+ line 16 ("<p " +:+ attr "class" "blog-post-excerpt" +:+ ">")
  +:+ line 20 (getTranslatedText w (excerpt post))
  +:+ line 16 "</p>"
  +:+ line 12 "</article>"
  +:+ line 8 "".

Definition postCard (w : World) (post : BlogPost) : string :=
  article ("<a " +:+ attr "href" (url post) +:+ " "
           +:+ attr "target" "_blank" +:+ " "
           +:+ attr "rel" "noopener noreferrer" +:+ ">") w post.

Definition placeholderCard (w : World) (post : BlogPost) : string :=
  article ("<a " +:+ attr "href" (url post) +:+ ">") w post.

Definition renderBlogPlaceholder (w : World) : World :=
  match blogContainer w with
  | None => w
  | Some _ =>
      set_blogContainer
        (Some (join (map (placeholderCard w) placeholderPosts))) w
  end.

Definition renderBlogPosts (w : World) : World :=
  match blogContainer w with
  | None => w
  | Some _ =>
      if Nat.eqb (length (blogPosts w)) 0 then renderBlogPlaceholder w
      else
        let recentPosts := take 3 (blogPosts w) in
        set_blogContainer
          (Some (join (map (postCard w) recentPosts))) w
  end.

(** *** Loading: a state-and-exception monad for [try]/[catch] *)

Inductive Result (A : Type) : Type :=
| Ok (a : A)
| Throw (e : Exn).
Arguments Ok {A} a.
Arguments Throw {A} e.

Definition M (A : Type) : Type := World → Result A * World.

Definition ret {A} (a : A) : M A := λ w, (Ok a, w).

Definition bind {A B} (m : M A) (k : A → M B) : M B :=
  λ w, match m w with
       | (Ok a, w') => k a w'
       | (Throw e, w') => (Throw e, w')
       end.

Definition throw {A} (e : Exn) : M A := λ w, (Throw e, w).

Definition modify (f : World → World) : M unit := λ w, (Ok tt, f w).

Definition try_catch {A} (body : M A) (handler : Exn → M A) : M A :=
  λ w, match body w with
       | (Ok a, w') => (Ok a, w')
       | (Throw e, w') => handler e w'
       end.

Notation "x <- m ;; k" := (bind m (λ x, k))
  (at level 20, m at level 99, k at level 200, only parsing).
Notation "m ;; k" := (bind m (λ _, k))
  (at level 100, k at level 200, only parsing, right associativity).

(** What the network hands back: text that is not JSON, a JSON object
    whose [posts] member is absent or a list of posts, or the JSON value
    [null].  Other JSON values (an object whose [posts] is not a list, a
    post without title) are not represented. *)
Inductive JsonBody : Type :=
| Malformed
| Parsed (posts : option (list BlogPost))
| ParsedNull.

(** The value [response.json()] resolves to. *)
Inductive JsonData : Type :=
| DataObject (posts : option (list BlogPost))
| DataNull.

Record Response : Type := mkResponse {
  status : nat;
  body : JsonBody
}.

(** [response.ok]: the status is in the range 200-299. *)
Definition ok (r : Response) : bool :=
  Nat.leb 200 (status r) && Nat.leb (status r) 299.

Inductive FetchOutcome : Type :=
| NetworkError
| Responded (r : Response).

(** [await fetch(url)]: the request is recorded; a network error
    rejects the promise. *)
Definition fetch (url : string) (outcome : FetchOutcome) : M Response :=
  λ w, (match outcome with
        | NetworkError => Throw FetchTypeError
        | Responded r => Ok r
        end, set_requests (requests w ++ [url]) w).

(** [await response.json()]. *)
Definition json (r : Response) : M JsonData :=
  match body r with
  | Malformed => throw JsonSyntaxError
  | Parsed posts => ret (DataObject posts)
  | ParsedNull => ret DataNull
  end.

(** [data.posts]: reading a property of [null] throws. *)
Definition data_posts (data : JsonData) : M (option (list BlogPost)) :=
  match data with
  | DataObject posts => ret posts
  | DataNull => throw PropertyOfNull
  end.

Definition console_warn (message : string) (error : Exn) : M unit :=
  modify (λ w, set_console (console w ++ [Warn message error]) w).

Definition loadBlogPosts (outcome : FetchOutcome) : M unit :=
  try_catch
    (response <- fetch "blog/posts.json" outcome ;;
     if negb (ok response)
     then throw (Error "Failed to load blog posts")
     else
       data <- json response ;;
       posts <- data_posts data ;;
       modify (set_blogPosts (default [] posts)) ;;
       modify renderBlogPosts)
    (λ error,
       console_warn "Could not load blog posts:" error ;;
       modify renderBlogPlaceholder).

End Rendering.

Arguments Ok {A} a.
Arguments Throw {A} e.

(** ** Reveal on scroll *)

Module AnimationObserver.

(** The three inline style properties the observer writes. *)
Record Style : Type := mkStyle {
  opacity : string;
  transform : string;
  transition : string
}.

Definition noStyle : Style := mkStyle "" "" "".

(** An [IntersectionObserverEntry], as far as the callback reads it.
    Elements are named by their position in the document. *)
Record Entry : Type := mkEntry {
  target : nat;
  isIntersecting : bool
}.

(** Inline styles of the page's elements and the targets that
    [this.observer] currently watches. *)
Record Page : Type := mkPage {
  style : gmap nat Style;
  observed : gset nat
}.

Definition styleOf (p : Page) (el : nat) : Style :=
  default noStyle (style p !! el).

Definition set_style (el : nat) (f : Style → Style) (p : Page) : Page :=
  mkPage (<[el := f (styleOf p el)]> (style p)) (observed p).

Definition observe (el : nat) (p : Page) : Page :=
  mkPage (style p) ({[el]} ∪ observed p).

Definition unobserve (el : nat) (p : Page) : Page :=
  mkPage (style p) (observed p ∖ {[el]}).

(** [init()]: [animatedElements] is the result of the selector query;
    [reducedMotion] is the media query's answer. *)
Definition init (reducedMotion : bool) (animatedElements : list nat)
  (p : Page) : Page :=
  if reducedMotion then p
  else
    foldl
      (λ p el,
         let p := set_style el (λ s, mkStyle "0" (transform s) (transition s)) p in
         let p := set_style el (λ s, mkStyle (opacity s) "translateY(20px)" (transition s)) p in
         let p := set_style el (λ s, mkStyle (opacity s) (transform s)
                                       "opacity 0.6s ease, transform 0.6s ease") p in
         observe el p)
      p animatedElements.

Definition handleEntry (p : Page) (entry : Entry) : Page :=
  if isIntersecting entry then
    let p := set_style (target entry)
               (λ s, mkStyle "1" (transform s) (transition s)) p in
    let p := set_style (target entry)
               (λ s, mkStyle (opacity s) "translateY(0)" (transition s)) p in
    unobserve (target entry) p
  else p.

Definition handleIntersection (entries : list Entry) (p : Page) : Page :=
  foldl handleEntry p entries.

(** Any number of later callback invocations, one per batch of entries. *)
Definition handleAll (batches : list (list Entry)) (p : Page) : Page :=
  foldl (λ p entries, handleIntersection entries p) p batches.

(** The resting visible state. *)
Definition revealed (s : Style) : Prop :=
  opacity s = "1" ∧ transform s = "translateY(0)".

(** The hidden state in which [init] leaves a watched element. *)
Definition hidden (s : Style) : Prop :=
  opacity s = "0" ∧ transform s = "translateY(20px)".

End AnimationObserver.

(** ** [debounce] *)

Module Debounce.
Section Debounce.

(** The argument list of one call of the debounced function. *)
Variable Args : Type.

(** The closure variable [timeout], the browser's table of pending
    timers (each holding the [args] its [later] has captured), the next
    timer id, and the calls of [func] made so far. *)
Record State : Type := mkState {
  timeout : option nat;
  pending : gmap nat Args;
  nextId : nat;
  invoked : list Args
}.

Definition initial : State := mkState None ∅ 1 [].

(** [clearTimeout(id)]; [clearTimeout(undefined)] does nothing. *)
Definition clearTimeout (id : option nat) (s : State) : State :=
  match id with
  | None => s
  | Some i => mkState (timeout s) (delete i (pending s)) (nextId s) (invoked s)
  end.

(** [executedFunction(...args)]. *)
Definition executedFunction (args : Args) (s : State) : State :=
  let s := clearTimeout (timeout s) s in
  mkState (Some (nextId s)) (<[nextId s := args]> (pending s))
    (S (nextId s)) (invoked s).

(** The browser runs the callback of timer [id], if that timer is
    pending: the timer leaves the table, then [later] clears [timeout]
    and calls [func] with the arguments it has captured. *)
Definition fire (id : nat) (s : State) : State :=
  match pending s !! id with
  | None => s
  | Some args =>
      let s := mkState (timeout s) (delete id (pending s)) (nextId s)
                 (invoked s) in
      let s := clearTimeout (timeout s) s in
      mkState (timeout s) (pending s) (nextId s) (invoked s ++ [args])
  end.

Inductive Event : Type :=
| Call (args : Args)
| Fire (id : nat).

Definition step (s : State) (e : Event) : State :=
  match e with
  | Call args => executedFunction args s
  | Fire id => fire id s
  end.

Definition run (events : list Event) (s : State) : State :=
  foldl step s events.

(** The argument lists of the calls among the events, in order. *)
Definition calls (events : list Event) : list Args :=
  omap (λ e, match e with Call args => Some args | Fire _ => None end) events.

(** What holds between the calls made so far and the state of the
    closure: [func] has been called on a sublist of the calls; a pending
    timer is the one [timeout] names, it holds the arguments of the last
    call, and that call has not been passed on to [func] yet. *)
Definition consistent (s : State) (made : list Args) : Prop :=
  invoked s `sublist_of` made
  ∧ ∀ id a, pending s !! id = Some a →
            timeout s = Some id
            ∧ ∃ earlier, made = earlier ++ [a]
                         ∧ invoked s `sublist_of` earlier.

End Debounce.
End Debounce.

(** ** Sample pages and the claims as they are read *)

(** A page whose controller has switched to French; used to run the
    statements below on concrete data. *)
Definition frenchPage : World :=
  mkWorld (str "fr") [] false {[ "preferredLanguage" := "fr" ]} "fr-FR"
    "fr" "Tom S. - Ingénieur Logiciel" None [] (Some "") [] [].

(** The reading of claim C7: whenever the field is present, the suffix
    shows its value. *)
Definition showsReadTime (post : BlogPost) : Prop :=
  ∀ n, readTime post = Some n →
       readTimeSuffix post = "• " +:+ pretty n +:+ " min read".

(** The number of cards in a piece of HTML: the occurrences of the opening
    [<article] tag. *)
Fixpoint cardCount (html : string) : nat :=
  match html with
  | EmptyString => 0
  | String _ rest =>
      (if String.prefix "<article" html then 1 else 0) + cardCount rest
  end.

(** A stand-in for the platform's date formatting, for concrete runs: it
    shows the ISO date as it is. *)
Definition isoDate (locale dateString : string) : string := dateString.

(** A page with an empty [#blog-posts] container, in English. *)
Definition blankPage : World :=
  mkWorld (str "en") [] false ∅ "en-US" "en" "Tom S. - Software Engineer"
    None [] (Some "") [] [].


(** Ten numbered posts. *)
Definition tenPosts : list BlogPost :=
  map (λ i, mkPost (Plain ("Post " +:+ pretty i)) "2024-03-01"
              (Plain "Text") "#" (Some 4%N))
    (seq 1 10).

(** A fetch that did not deliver a post list: the request failed, the
    status is outside 200-299, or the body is not JSON. *)
Definition failed (outcome : FetchOutcome) : Prop :=
  match outcome with
  | NetworkError => True
  | Responded r => ok r = false ∨ body r = Malformed
  end.

(** A 2xx answer whose body is the JSON value [null]. *)
Definition answeredNull (outcome : FetchOutcome) : Prop :=
  ∃ r, outcome = Responded r ∧ ok r = true ∧ body r = ParsedNull.


Definition enButton : Element :=
  mkElement {[ "lang-btn"; "active" ]} {[ "lang" := "en" ]} "EN" "".
Definition frButton : Element :=
  mkElement {[ "lang-btn" ]} {[ "lang" := "fr" ]} "FR" "".
(** A third language button, for a language the script has no text for. *)
Definition deButton : Element :=
  mkElement {[ "lang-btn" ]} {[ "lang" := "de" ]} "DE" "".
(** An icon nested in a language button: it has no [data-lang] of its
    own, and it is the event target when the click lands on it. *)
Definition flagIcon : Element :=
  mkElement {[ "flag" ]} ∅ "" "".
Definition projectsHeading : Element :=
  mkElement ∅ {[ "en" := "Projects"; "fr" := "Projets" ]} "Projects" "".

Definition loadedPage : World :=
  mkWorld (str "en") [] false ∅ "en-US" "en" "Tom S. - Software Engineer"
    (Some "Tom S. - Software Engineer Portfolio. Explore my projects, blog posts, and get in touch.")
    [enButton; frButton; deButton; projectsHeading] (Some "") [] [].

(** ** The passes of a language switch, element by element *)

(** What each of the three [forEach] passes of [switchLanguage] and
    [updateTranslations] does to one element: the selector test and the
    callback together. *)
Definition buttonPass (lang : Val) (el : Element) : Element :=
  if bool_decide ("lang-btn" ∈ classList el)
  then classList_toggle "active"
         (strict_eq (of_option (dataset el !! "lang")) lang) el
  else el.

Definition textPass (key : string) (el : Element) : Element :=
  if bool_decide (is_Some (dataset el !! "en"))
     || bool_decide (is_Some (dataset el !! "fr"))
  then if truthy (dataset el !! key)
       then set_textContent (default "" (dataset el !! key)) el
       else el
  else el.

Definition placeholderPass (key : string) (el : Element) : Element :=
  if bool_decide (is_Some (dataset el !! (key +:+ "Placeholder")))
  then if truthy (dataset el !! (key +:+ "Placeholder"))
       then set_placeholder
              (default "" (dataset el !! (key +:+ "Placeholder"))) el
       else el
  else el.

(** ** The two visual states of a watched element *)

(** The inline style in which [init] leaves an element, and the one in
    which the callback leaves it. *)
Definition hiddenStyle : AnimationObserver.Style :=
  AnimationObserver.mkStyle "0" "translateY(20px)"
    "opacity 0.6s ease, transform 0.6s ease".

Definition shownStyle : AnimationObserver.Style :=
  AnimationObserver.mkStyle "1" "translateY(0)"
    "opacity 0.6s ease, transform 0.6s ease".

(** The state of one element: hidden and watched, or shown and not
    watched. *)
Definition settled (p : AnimationObserver.Page) (el : nat) : Prop :=
  (AnimationObserver.styleOf p el = hiddenStyle
   ∧ el ∈ AnimationObserver.observed p)
  ∨ (AnimationObserver.styleOf p el = shownStyle
     ∧ el ∉ AnimationObserver.observed p).

(** ** Navigation, smooth scrolling and the contact form *)

Definition set_mobileNavOpen (open : bool) (w : World) : World :=
  mkWorld (currentLanguage w) (blogPosts w) open (localStorage w)
    (navigator_language w) (documentElement_lang w) (document_title w)
    (metaDescription w) (elements w) (blogContainer w) (console w)
    (requests w).

(** The submit button of the contact form, with its label as text. *)
Record SubmitButton : Type := mkSubmitButton {
  button_classList : gset string;
  button_disabled : bool;
  button_textContent : string
}.

(** A call of [window.scrollTo]. *)
Record ScrollRequest : Type := mkScrollRequest {
  scroll_top : Z;
  scroll_behavior : string
}.

(** The parts of the page that the navigation, scrolling and form
    handlers read and write, around the [World] of the controller.  An
    element that a selector may fail to find is an [option]. *)
Record Viewport : Type := mkViewport {
  site : World;
  (* [.nav-toggle]: its [aria-expanded] attribute *)
  navToggle : option (option string);
  (* [.nav-menu]: its class list *)
  navMenu : option (gset string);
  (* [document.body.style.overflow] *)
  body_overflow : string;
  (* [.header]: its [offsetHeight] *)
  header : option Z;
  (* the elements that have an id, with their [offsetTop] *)
  anchors : gmap string Z;
  (* calls of [window.scrollTo] and of [history.pushState], oldest first *)
  scrolls : list ScrollRequest;
  history : list string;
  (* the first [button[type="submit"]] of the form *)
  submitButton : option SubmitButton;
  (* pending [setTimeout] callbacks, oldest first: the delay and the
     [originalText] the callback has captured *)
  timers : list (nat * string)
}.

Definition set_site (w : World) (v : Viewport) : Viewport :=
  mkViewport w (navToggle v) (navMenu v) (body_overflow v) (header v)
    (anchors v) (scrolls v) (history v) (submitButton v) (timers v).

Definition set_navToggle (t : option (option string)) (v : Viewport)
  : Viewport :=
  mkViewport (site v) t (navMenu v) (body_overflow v) (header v)
    (anchors v) (scrolls v) (history v) (submitButton v) (timers v).

Definition set_navMenu (m : option (gset string)) (v : Viewport)
  : Viewport :=
  mkViewport (site v) (navToggle v) m (body_overflow v) (header v)
    (anchors v) (scrolls v) (history v) (submitButton v) (timers v).

Definition set_body_overflow (o : string) (v : Viewport) : Viewport :=
  mkViewport (site v) (navToggle v) (navMenu v) o (header v)
    (anchors v) (scrolls v) (history v) (submitButton v) (timers v).

Definition set_scrolls (l : list ScrollRequest) (v : Viewport) : Viewport :=
  mkViewport (site v) (navToggle v) (navMenu v) (body_overflow v) (header v)
    (anchors v) l (history v) (submitButton v) (timers v).

Definition set_history (l : list string) (v : Viewport) : Viewport :=
  mkViewport (site v) (navToggle v) (navMenu v) (body_overflow v) (header v)
    (anchors v) (scrolls v) l (submitButton v) (timers v).

Definition set_submitButton (b : option SubmitButton) (v : Viewport)
  : Viewport :=
  mkViewport (site v) (navToggle v) (navMenu v) (body_overflow v) (header v)
    (anchors v) (scrolls v) (history v) b (timers v).

Definition set_timers (l : list (nat * string)) (v : Viewport) : Viewport :=
  mkViewport (site v) (navToggle v) (navMenu v) (body_overflow v) (header v)
    (anchors v) (scrolls v) (history v) (submitButton v) l.

(** How a handler ends: normally, or with the [TypeError] of a property
    access on [null]. *)
Inductive Completion : Type :=
| Normal
| TypeError.

Definition isOpen (v : Viewport) : bool := mobileNavOpen (site v).

(** [bool.toString()]. *)
Definition bool_toString (b : bool) : string :=
  if b then "true" else "false".

Definition toggleMobileNav (v : Viewport) : Completion * Viewport :=
  let open := negb (isOpen v) in
  let v := set_site (set_mobileNavOpen open (site v)) v in
  match navToggle v with
  | None => (TypeError, v)
  | Some _ =>
      let v := set_navToggle (Some (Some (bool_toString open))) v in
      match navMenu v with
      | None => (TypeError, v)
      | Some classes =>
          let v :=
            set_navMenu
              (Some (if open then {[ "active" ]} ∪ classes
                     else classes ∖ {[ "active" ]})) v in
          (Normal, set_body_overflow (if open then "hidden" else "") v)
      end
  end.

Definition closeMobileNav (v : Viewport) : Completion * Viewport :=
  if negb (isOpen v) then (Normal, v) else
  let v := set_site (set_mobileNavOpen false (site v)) v in
  match navToggle v with
  | None => (TypeError, v)
  | Some _ =>
      let v := set_navToggle (Some (Some "false")) v in
      match navMenu v with
      | None => (TypeError, v)
      | Some classes =>
          let v := set_navMenu (Some (classes ∖ {[ "active" ]})) v in
          (Normal, set_body_overflow "" v)
      end
  end.

(** The events the navigation listeners of [setupEventListeners] react
    to.  A click is described by where its target lies: inside the
    [.nav-toggle] element, inside a [.nav-link] of the menu, or anywhere
    else; the two flags are the answers of [e.target.closest('.nav')] and
    [e.target.closest('.nav-toggle')]. *)
Inductive NavEvent : Type :=
| ClickToggle
| ClickNavLink (insideNav insideToggle : bool)
| ClickElsewhere (insideNav insideToggle : bool)
| KeyDown (key : string).

(** The toggle and link listeners are installed only
    [if (navToggle && navMenu)]. *)
Definition wired (v : Viewport) : bool :=
  bool_decide (is_Some (navToggle v)) && bool_decide (is_Some (navMenu v)).

(** The click listener on [document]. *)
Definition documentClick (insideNav insideToggle : bool) (v : Viewport)
  : Completion * Viewport :=
  if isOpen v && negb insideNav && negb insideToggle
  then closeMobileNav v
  else (Normal, v).

(** Two listeners for one event: the second runs on the state the first
    leaves, also when the first has thrown. *)
Definition thenListener (first second : Viewport → Completion * Viewport)
  (v : Viewport) : Completion * Viewport :=
  match first v with
  | (Normal, v') => second v'
  | (TypeError, v') => (TypeError, (second v').2)
  end.

Definition dispatch (e : NavEvent) (v : Viewport) : Completion * Viewport :=
  match e with
  | ClickToggle =>
      if wired v
      then thenListener toggleMobileNav (documentClick true true) v
      else documentClick true true v
  | ClickNavLink insideNav insideToggle =>
      if wired v
      then thenListener closeMobileNav (documentClick insideNav insideToggle) v
      else documentClick insideNav insideToggle v
  | ClickElsewhere insideNav insideToggle =>
      documentClick insideNav insideToggle v
  | KeyDown key =>
      if bool_decide (key = "Escape") && isOpen v
      then closeMobileNav v
      else (Normal, v)
  end.

(** A sequence of events: the state at the end, and whether any listener
    has thrown. *)
Fixpoint dispatchAll (events : list NavEvent) (v : Viewport)
  : Completion * Viewport :=
  match events with
  | [] => (Normal, v)
  | e :: rest =>
      match dispatch e v with
      | (Normal, v') => dispatchAll rest v'
      | (TypeError, v') => (TypeError, (dispatchAll rest v').2)
      end
  end.

(** The navigation is in step with the flag: the toggle says so, the menu
    shows so, and the body scrolls exactly when the menu is closed. *)
Definition inStep (v : Viewport) : Prop :=
  navToggle v = Some (Some (bool_toString (isOpen v)))
  ∧ (∃ classes, navMenu v = Some classes
                ∧ ("active" ∈ classes ↔ isOpen v = true))
  ∧ body_overflow v = (if isOpen v then "hidden" else "").

(** What a handler leaves behind: how it ended, whether it called
    [e.preventDefault()], and the page. *)
Record Handled : Type := mkHandled {
  completion : Completion;
  defaultPrevented : bool;
  after : Viewport
}.

(** [document.getElementById(id)]: no element has the empty id. *)
Definition getElementById (id : string) (v : Viewport) : option Z :=
  if bool_decide (id = "") then None else anchors v !! id.

(** [s.substring(1)]. *)
Definition substring1 (s : string) : string :=
  match s with
  | EmptyString => EmptyString
  | String _ rest => rest
  end.

(** [handleSmoothScroll(e)], with [href] the value of
    [e.target.getAttribute('href')] ([null] when the target has no such
    attribute). *)
Definition handleSmoothScroll (href : option string) (v : Viewport)
  : Handled :=
  if truthy href && String.prefix "#" (default "" href) then
    let targetId := substring1 (default "" href) in
    match getElementById targetId v with
    | None => mkHandled Normal true v
    | Some offsetTop =>
        match header v with
        | None => mkHandled TypeError true v
        | Some headerHeight =>
            let targetPosition := (offsetTop - headerHeight - 20)%Z in
            let v :=
              set_scrolls
                (scrolls v ++ [mkScrollRequest targetPosition "smooth"]) v in
            match closeMobileNav v with
            | (TypeError, v) => mkHandled TypeError true v
            | (Normal, v) =>
                mkHandled Normal true
                  (set_history (history v ++ [default "" href]) v)
            end
        end
    end
  else mkHandled Normal false v.

(** [handleFormSubmission(e)] up to the [setTimeout] call. *)
Definition handleFormSubmission (v : Viewport) : Completion * Viewport :=
  match submitButton v with
  | None => (TypeError, v)
  | Some button =>
      let originalText := button_textContent button in
      let loadingText :=
        if strict_eq (currentLanguage (site v)) (str "fr")
        then "Envoi..." else "Sending..." in
      let v :=
        set_submitButton
          (Some (mkSubmitButton ({[ "loading" ]} ∪ button_classList button)
                   true loadingText)) v in
      (Normal, set_timers (timers v ++ [(2000, originalText)]) v)
  end.

(** The oldest pending timer fires: the callback of
    [handleFormSubmission] with the text it has captured. *)
Definition fireTimer (v : Viewport) : Viewport :=
  match timers v with
  | [] => v
  | (_, originalText) :: rest =>
      let v := set_timers rest v in
      match submitButton v with
      | None => v
      | Some button =>
          set_submitButton
            (Some (mkSubmitButton (button_classList button ∖ {[ "loading" ]})
                     false originalText)) v
      end
  end.

(** A phone-sized page with the menu closed, and a page without any
    navigation markup. *)
Definition phonePage : Viewport :=
  mkViewport blankPage (Some (Some "false")) (Some {[ "nav-menu" ]}) ""
    (Some 64%Z) {[ "projects" := 900%Z; "contact" := 2400%Z ]} [] []
    (Some (mkSubmitButton {[ "btn" ]} false "Send Message")) [].

Definition barePage : Viewport :=
  mkViewport blankPage None None "" None ∅ [] [] None [].

(** ** The copyright year and the start of the page *)

(** [s.includes(pat)], the test behind the attribute selector
    [[attr*="pat"]]. *)
Fixpoint occurs (pat s : string) : bool :=
  String.prefix pat s
  || match s with
     | EmptyString => false
     | String _ rest => occurs pat rest
     end.

Fixpoint drop_chars (n : nat) (s : string) : string :=
  match n, s with
  | O, _ => s
  | S _, EmptyString => EmptyString
  | S n', String _ rest => drop_chars n' rest
  end.

(** [s.replace(pat, rep)] for a string pattern: the first occurrence is
    replaced.  ([rep] holds no [$], so it is inserted as it is.) *)
Fixpoint replace_first (pat rep s : string) : string :=
  if String.prefix pat s
  then rep +:+ drop_chars (String.length pat) s
  else match s with
       | EmptyString => EmptyString
       | String c rest => String c (replace_first pat rep rest)
       end.

Definition set_dataset (d : gmap string string) (el : Element) : Element :=
  mkElement (classList el) d (textContent el) (placeholder el).

(** The callback of the [forEach] in [updateCopyrightYear]. *)
Definition stampYear (currentYear : N) (el : Element) : Element :=
  let enText := replace_first "2024" (pretty currentYear) <$> dataset el !! "en" in
  let frText := replace_first "2024" (pretty currentYear) <$> dataset el !! "fr" in
  let el :=
    if truthy enText
    then set_dataset (<["en" := default "" enText]> (dataset el)) el
    else el in
  if truthy frText
  then set_dataset (<["fr" := default "" frText]> (dataset el)) el
  else el.

(** [updateCopyrightYear()], with [currentYear] the value of
    [new Date().getFullYear()]. *)
Definition updateCopyrightYear (currentYear : N) (w : World) : World :=
  let w :=
    forEach_matching
      (λ el, default false (occurs "© 2024" <$> dataset el !! "en")
             || default false (occurs "© 2024" <$> dataset el !! "fr"))
      (stampYear currentYear) w in
  updateTranslations w.

(** [init()] up to the point where the fetch is pending: the request of
    [loadBlogPosts] is out, the year is stamped, the initial language is
    applied.  [setupEventListeners] only installs listeners and
    [initSmoothScrolling] only writes a scroll-behaviour style, which is
    not among the fields of the page. *)
Definition init (currentYear : N) (w : World) : World :=
  let w := set_requests (requests w ++ ["blog/posts.json"]) w in
  let w := updateCopyrightYear currentYear w in
  handleInitialLanguage w.

(** [new PortfolioSite()] on a page. *)
Definition newPortfolioSite (currentYear : N) (page : World) : World :=
  init currentYear (constructed page).




(** A footer line as the markup has it. *)
Definition footerLine : Element :=
  mkElement ∅
    {[ "en" := "© 2024 Tom S. All rights reserved.";
       "fr" := "© 2024 Tom S. Tous droits réservés." ]}
    "© 2024 Tom S. All rights reserved." "".

Definition footerPage : World :=
  mkWorld (str "en") [] false ∅ "fr-FR" "en" "Tom S. - Software Engineer"
    None [projectsHeading; footerLine] (Some "") [] [].

(** ** Property reads on values of any type *)

(** The post data is whatever the JSON file holds, and a property read on
    an object also finds the members every object inherits.  This module
    follows [getTranslatedText] on arguments of any type; the typed
    function above is its restriction to strings and to objects whose
    members are strings. *)
Module Dynamic.

(** What a member of a title or excerpt object can hold.  Numbers are
    taken to be integers; [MObject] stands for any nested object or
    array, of which only the truthiness matters here. *)
Inductive Member : Type :=
| MNull
| MBoolean (b : bool)
| MNumber (n : Z)
| MString (s : string)
| MObject.

(** The argument of [getTranslatedText]: [undefined] (a post without the
    field), a primitive, or an object with its own members.  Arrays are
    not represented. *)
Inductive Text : Type :=
| TUndefined
| TNull
| TBoolean (b : bool)
| TNumber (n : Z)
| TString (s : string)
| TObject (members : gmap string Member).

(** What a property read gives: [undefined], a member of the data, or a
    member inherited from the prototype chain. *)
Inductive Value : Type :=
| Undefined
| Data (m : Member)
| Inherited (name : string).

(** The names [Object.prototype] supplies to every object. *)
Definition objectPrototype : list string :=
  [ "constructor"; "hasOwnProperty"; "isPrototypeOf";
    "propertyIsEnumerable"; "toLocaleString"; "toString"; "valueOf";
    "__proto__"; "__defineGetter__"; "__defineSetter__";
    "__lookupGetter__"; "__lookupSetter__" ].

(** The names a number finds on [Number.prototype] and beyond; a boolean
    finds [constructor], [toString] and [valueOf] on [Boolean.prototype],
    which [Object.prototype] has as well. *)
Definition numberPrototype : list string :=
  [ "toExponential"; "toFixed"; "toPrecision" ] ++ objectPrototype.

Definition inherits (prototype : list string) (key : string) : bool :=
  bool_decide (key ∈ prototype).

(** [object[key]]: an own member first, then the prototype chain. *)
Definition get (members : gmap string Member) (prototype : list string)
  (key : string) : Value :=
  match members !! key with
  | Some m => Data m
  | None => if inherits prototype key then Inherited key else Undefined
  end.

#[global] Instance truthy_Member : Truthy Member :=
  λ m, match m with
       | MNull => false
       | MBoolean b => b
       | MNumber n => negb (Z.eqb n 0)
       | MString s => truthy s
       | MObject => true
       end.

#[global] Instance truthy_Value : Truthy Value :=
  λ v, match v with
       | Undefined => false
       | Data m => truthy m
       | Inherited _ => true
       end.

(** [x || y]. *)
Definition or (x y : Value) : Value := if truthy x then x else y.

Inductive Completion : Type :=
| Returns (v : Value)
| TypeError.

(** [getTranslatedText(text)] under the active language
    [currentLanguage]. *)
Definition getTranslatedText (currentLanguage : Val) (text : Text)
  : Completion :=
  let read members prototype :=
    Returns (or (get members prototype (toString currentLanguage))
               (or (get members prototype "en") (Data (MString "")))) in
  match text with
  | TString s => Returns (Data (MString s))
  | TUndefined | TNull => TypeError
  | TBoolean _ => read ∅ objectPrototype
  | TNumber _ => read ∅ numberPrototype
  | TObject members => read members objectPrototype
  end.

End Dynamic.


(** The active language names no inherited member: true of [en], [fr],
    [undefined] and of every language tag.  Then a read of
    [text[this.currentLanguage]] sees own members only. *)
Definition ordinaryLanguage (w : World) : Prop :=
  Dynamic.inherits Dynamic.objectPrototype (toString (currentLanguage w))
  = false.




(** ** The markup of the cards, written out *)

Definition quoted (s : string) : string := dq +:+ s +:+ dq.

(** The opening tag of the title link, in [renderBlogPosts] and in
    [renderBlogPlaceholder]. *)
Definition postLink (url : string) : string :=
  "<a href=" +:+ quoted url +:+ " target=" +:+ quoted "_blank"
  +:+ " rel=" +:+ quoted "noopener noreferrer" +:+ ">".

Definition placeholderLink (url : string) : string :=
  "<a href=" +:+ quoted url +:+ ">".

(** One card as it stands in the container, with the six texts that
    vary. *)
Definition cardMarkup (link title datetime dateText minutes excerpt : string)
  : string :=
  nl +:+ "            <article class=" +:+ quoted "blog-post" +:+ ">"
  +:+ nl +:+ "                <h3 class=" +:+ quoted "blog-post-title" +:+ ">"
  +:+ nl +:+ "                    " +:+ link
  +:+ nl +:+ "                        " +:+ title
  +:+ nl +:+ "                    </a>"
  +:+ nl +:+ "                </h3>"
  +:+ nl +:+ "                <div class=" +:+ quoted "blog-post-meta" +:+ ">"
  +:+ nl +:+ "                    <time datetime=" +:+ quoted datetime +:+ ">"
  +:+ dateText +:+ "</time>"
  +:+ nl +:+ "                    " +:+ minutes
  +:+ nl +:+ "                </div>"
  +:+ nl +:+ "                <p class=" +:+ quoted "blog-post-excerpt" +:+ ">"
  +:+ nl +:+ "                    " +:+ excerpt
  +:+ nl +:+ "                </p>"
  +:+ nl +:+ "            </article>"
  +:+ nl +:+ "        ".

Definition localeOf (w : World) : string :=
  if bool_decide (currentLanguage w = str "fr") then "fr-FR" else "en-US".

(** The largest integer below which every integer is a JavaScript number
    and is printed digit by digit: [Number.MAX_SAFE_INTEGER]. *)
Definition maxSafeInteger : N := 9007199254740991.


Definition minutesText (readTime : option N) : string :=
  match readTime with
  | Some 0%N | None => ""
  | Some n => "• " +:+ pretty n +:+ " min read"
  end.


(** The three placeholder cards, in French or in English. *)
Definition placeholderMarkup (fmt : string → string → string)
  (french : bool) : string :=
  let locale := if french then "fr-FR" else "en-US" in
  cardMarkup (placeholderLink "#")
    (if french then "Débuter avec le Développement Web Moderne"
     else "Getting Started with Modern Web Development")
    "2024-01-15" (fmt locale "2024-01-15") "• 5 min read"
    (if french
     then "Un guide complet des outils et pratiques de développement web moderne que tout développeur devrait connaître."
     else "A comprehensive guide to modern web development tools and practices that every developer should know.")
  +:+ cardMarkup (placeholderLink "#")
    (if french then "Construire des Applications React Évolutives"
     else "Building Scalable React Applications")
    "2024-01-08" (fmt locale "2024-01-08") "• 8 min read"
    (if french
     then "Apprenez les meilleures pratiques pour construire des applications React qui évoluent avec vos besoins commerciaux."
     else "Learn best practices for building React applications that scale with your business needs.")
  +:+ cardMarkup (placeholderLink "#")
    (if french then "L'Avenir de JavaScript"
     else "The Future of JavaScript")
    "2024-01-01" (fmt locale "2024-01-01") "• 6 min read"
    (if french
     then "Explorer les fonctionnalités JavaScript à venir et comment elles changeront notre façon d'écrire du code."
     else "Exploring upcoming JavaScript features and how they will change the way we write code.").

(** A text without [<]: inserted into the markup it opens no tag. *)
Fixpoint plainText (s : string) : bool :=
  match s with
  | EmptyString => true
  | String c rest => negb (Ascii.eqb c "<") && plainText rest
  end.


(** The dates of the placeholder posts, formatted, open no tag. *)
Definition plainDates (fmt : string → string → string) (french : bool)
  : bool :=
  let locale := if french then "fr-FR" else "en-US" in
  plainText (fmt locale "2024-01-15")
  && plainText (fmt locale "2024-01-08")
  && plainText (fmt locale "2024-01-01").

(** No ending of the text is a beginning of [<article]: a tag that opens
    in this text is recognised within it. *)
Fixpoint closedEnd (s : string) : bool :=
  match s with
  | EmptyString => true
  | String c rest =>
      (Nat.leb 8 (String.length s) || negb (String.prefix s "<article"))
      && closedEnd rest
  end.

(** A language value written in lower-case letters and different from
    [constructor]: the attribute selectors built from it are valid, and a
    read of [dataset], [titles] or [descriptions] under it finds own
    entries only. *)
Fixpoint lowerCase (s : string) : bool :=
  match s with
  | EmptyString => true
  | String c rest =>
      (Nat.leb 97 (nat_of_ascii c) && Nat.leb (nat_of_ascii c) 122)
      && lowerCase rest
  end.

Definition plainCode (lang : Val) : bool :=
  lowerCase (toString lang)
  && negb (bool_decide (toString lang = "constructor")).

(** * Properties *)

(** ** Strings *)

Module StringFacts.

Lemma append_cons x (a b : string) :
  String x a +:+ b = String x (a +:+ b).
Proof. reflexivity. Qed.

Lemma append_nil (b : string) : "" +:+ b = b.
Proof. reflexivity. Qed.

Lemma append_assoc (a b c : string) : (a +:+ b) +:+ c = a +:+ (b +:+ c).
Proof.
  induction a as [|x a IH]; [done|]. rewrite !append_cons. by f_equal.
Qed.

Lemma length_append (a b : string) :
  String.length (a +:+ b) = String.length a + String.length b.
Proof.
  induction a as [|x a IH]; [done|]. rewrite append_cons. cbn. by f_equal.
Qed.

Lemma prefix_nil (s : string) : String.prefix "" s = true.
Proof. by destruct s. Qed.

Lemma prefix_append (p b : string) : String.prefix p (p +:+ b) = true.
Proof.
  induction p as [|x p IH]; [apply prefix_nil|].
  rewrite append_cons. cbn. by destruct (ascii_dec x x).
Qed.

Lemma drop_chars_append (p b : string) :
  drop_chars (String.length p) (p +:+ b) = b.
Proof.
  induction p as [|x p IH]; [by destruct b|]. rewrite append_cons. by cbn.
Qed.


(** Whether [p] is a prefix is decided by the first [length p]
    characters. *)
Lemma prefix_short (p y z : string) :
  String.length p ≤ String.length y →
  String.prefix p (y +:+ z) = String.prefix p y.
Proof.
  revert y. induction p as [|x p IH]; intros y Hlen.
  { by rewrite !prefix_nil. }
  destruct y as [|c y]; cbn in Hlen; [lia|].
  rewrite append_cons. cbn.
  destruct (ascii_dec x c); [|done]. apply IH. lia.
Qed.

Lemma occurs_unfold (p s : string) :
  occurs p s =
    String.prefix p s
    || match s with
       | EmptyString => false
       | String _ rest => occurs p rest
       end.
Proof. by destruct s. Qed.

Lemma replace_first_unfold (p rep s : string) :
  replace_first p rep s =
    if String.prefix p s
    then rep +:+ drop_chars (String.length p) s
    else match s with
         | EmptyString => EmptyString
         | String c rest => String c (replace_first p rep rest)
         end.
Proof. by destruct s. Qed.

Lemma occurs_append (p a b : string) : occurs p (a +:+ p +:+ b) = true.
Proof.
  induction a as [|x a IH]; rewrite occurs_unfold.
  - rewrite append_nil. by rewrite prefix_append.
  - rewrite append_cons, IH. apply orb_true_r.
Qed.

(** The first occurrence is where the pattern first fits: if [q +:+ t]
    (with [t] at most one character) does not occur in [a +:+ q], then in
    [a +:+ (q +:+ t) +:+ b] it is the occurrence after [a] that is
    replaced. *)
Lemma replace_first_at (q t rep a b : string) :
  String.length t ≤ 1 →
  occurs (q +:+ t) (a +:+ q) = false →
  replace_first (q +:+ t) rep (a +:+ (q +:+ t) +:+ b) = a +:+ rep +:+ b.
Proof.
  intros Ht. induction a as [|x a IH]; intros Hocc;
    rewrite replace_first_unfold.
  - rewrite append_nil. by rewrite prefix_append, drop_chars_append.
  - rewrite occurs_unfold in Hocc.
    apply orb_false_iff in Hocc as [Hprefix Hocc].
    rewrite append_cons in Hocc.
    assert (String.prefix (q +:+ t) (String x a +:+ (q +:+ t) +:+ b)
            = false) as ->.
    { rewrite <- Hprefix.
      rewrite (append_assoc q t b), <- (append_assoc (String x a) q (t +:+ b)).
      apply prefix_short.
      rewrite !length_append. cbn. lia. }
    rewrite !append_cons. rewrite IH by done. reflexivity.
Qed.


End StringFacts.

(** ** The markup of the cards *)

(** The template of the cards, with its line breaks and indentation, is
    the markup written out. *)
Lemma article_markup fmt anchor w post :
  article fmt anchor w post =
    cardMarkup anchor (getTranslatedText w (title post)) (date post)
      (formatDate fmt w (date post)) (readTimeSuffix post)
      (getTranslatedText w (excerpt post)).
Proof.
  unfold article, cardMarkup, line, attr, quoted.
  generalize (getTranslatedText w (title post)) (date post)
    (formatDate fmt w (date post)) (readTimeSuffix post)
    (getTranslatedText w (excerpt post)).
  intros t d f m e.
  rewrite !StringFacts.append_assoc. reflexivity.
Qed.

Lemma formatDate_localeOf fmt w dateString :
  formatDate fmt w dateString = fmt (localeOf w) dateString.
Proof. reflexivity. Qed.

Lemma readTimeSuffix_minutesText post :
  readTimeSuffix post = minutesText (readTime post).
Proof.
  unfold readTimeSuffix, minutesText.
  destruct (readTime post) as [[|p]|]; done.
Qed.

Lemma postCard_markup fmt w post :
  postCard fmt w post =
    cardMarkup (postLink (url post)) (getTranslatedText w (title post))
      (date post) (fmt (localeOf w) (date post)) (readTimeSuffix post)
      (getTranslatedText w (excerpt post)).
Proof.
  unfold postCard. rewrite article_markup, formatDate_localeOf.
  reflexivity.
Qed.

Lemma placeholderCard_markup fmt w post :
  placeholderCard fmt w post =
    cardMarkup (placeholderLink (url post))
      (getTranslatedText w (title post))
      (date post) (fmt (localeOf w) (date post)) (readTimeSuffix post)
      (getTranslatedText w (excerpt post)).
Proof.
  unfold placeholderCard. rewrite article_markup, formatDate_localeOf.
  reflexivity.
Qed.


(** An object with a non-empty English and a non-empty French entry is
    read in French under [fr] and in English under any other language. *)
Lemma getTranslatedText_two_entries w (en fr : string) :
  en ≠ "" → fr ≠ "" →
  getTranslatedText w (Translations {[ "en" := en; "fr" := fr ]}) =
    if bool_decide (currentLanguage w = str "fr") then fr else en.
Proof.
  intros Hen Hfr. unfold getTranslatedText.
  assert (({[ "en" := en; "fr" := fr ]} : gmap string string) !! "en"
          = Some en) as -> by apply lookup_insert_eq.
  case_bool_decide as Hlang.
  - rewrite Hlang. cbn [toString].
    rewrite lookup_insert_ne by done. rewrite lookup_singleton_eq.
    by destruct fr.
  - destruct (decide (toString (currentLanguage w) = "en")) as [->|Hne].
    + rewrite lookup_insert_eq. by destruct en.
    + rewrite lookup_insert_ne by done.
      destruct (decide (toString (currentLanguage w) = "fr")) as [Hfr'|Hne'].
      * rewrite Hfr'. rewrite lookup_singleton_eq.
        destruct (currentLanguage w) as [|s]; [done|].
        cbn in Hfr'. by subst.
      * rewrite lookup_singleton_ne by done. by destruct en.
Qed.

Lemma join_three (a b c : string) : join [a; b; c] = a +:+ b +:+ c.
Proof.
  unfold join. cbn [foldr]. f_equal. f_equal.
  induction c as [|x c IH]; [done|].
  rewrite StringFacts.append_cons. by f_equal.
Qed.

(** The three placeholder cards, as the container receives them. *)
Lemma placeholderCards_markup fmt w :
  join (map (placeholderCard fmt w) placeholderPosts) =
    placeholderMarkup fmt (bool_decide (currentLanguage w = str "fr")).
Proof.
  unfold placeholderPosts. cbn [map]. rewrite join_three.
  rewrite !placeholderCard_markup. cbn [title date excerpt url].
  rewrite !readTimeSuffix_minutesText. cbn [readTime].
  rewrite !getTranslatedText_two_entries by done.
  unfold placeholderMarkup, localeOf.
  by case_bool_decide.
Qed.

(** ** Counting the cards in a piece of markup *)

Lemma cardCount_cons c s :
  cardCount (String c s) =
    (if String.prefix "<article" (String c s) then 1 else 0) + cardCount s.
Proof. reflexivity. Qed.

Lemma prefix_other c s :
  Ascii.eqb c "<" = false → String.prefix "<article" (String c s) = false.
Proof.
  intros Hc.
  change (String.prefix "<article" (String c s))
    with (if ascii_dec "<" c then String.prefix "article" s else false).
  destruct (ascii_dec "<" c) as [Heq|]; [|done].
  subst c. by vm_compute in Hc.
Qed.

(** A text without [<] adds no card. *)
Lemma cardCount_plain s t :
  plainText s = true → cardCount (s +:+ t) = cardCount t.
Proof.
  induction s as [|c s IH]; [done|].
  cbn [plainText]. intros [Hc Hs]%andb_true_iff.
  rewrite StringFacts.append_cons, cardCount_cons, IH by done.
  rewrite prefix_other; [done|]. by destruct (Ascii.eqb c "<").
Qed.

Lemma prefix_undecided (p s t : string) :
  String.length s < String.length p →
  String.prefix s p = false →
  String.prefix p (s +:+ t) = false ∧ String.prefix p s = false.
Proof.
  revert s. induction p as [|a p IH]; intros s Hlen Hs; [cbn in Hlen; lia|].
  destruct s as [|b s]; [done|].
  rewrite StringFacts.append_cons. cbn [String.prefix] in *.
  destruct (ascii_dec a b) as [->|Hab].
  - destruct (ascii_dec b b); [|done].
    apply IH; [cbn in Hlen; lia|done].
  - done.
Qed.

(** The cards of a text that is closed at its end are counted in it. *)
Lemma cardCount_literal s t :
  closedEnd s = true → cardCount (s +:+ t) = cardCount s + cardCount t.
Proof.
  induction s as [|c s IH]; [done|].
  cbn [closedEnd]. intros [Hc Hs]%andb_true_iff.
  rewrite StringFacts.append_cons, !cardCount_cons, IH by done.
  rewrite <- StringFacts.append_cons.
  destruct (Nat.leb 8 (String.length (String c s))) eqn:Hlen.
  - apply Nat.leb_le in Hlen.
    rewrite (StringFacts.prefix_short "<article") by exact Hlen. lia.
  - apply Nat.leb_gt in Hlen. rewrite orb_false_l in Hc.
    apply negb_true_iff in Hc.
    destruct (prefix_undecided "<article" (String c s) t) as [-> ->];
      [exact Hlen|exact Hc|]. lia.
Qed.


Lemma cardCount_placeholder_card url t d f m e rest :
  plainText url = true → plainText t = true → plainText d = true →
  plainText f = true → plainText m = true → plainText e = true →
  cardCount (cardMarkup (placeholderLink url) t d f m e +:+ rest)
  = S (cardCount rest).
Proof.
  intros Hu Ht Hd Hf Hm He.
  unfold cardMarkup, placeholderLink, quoted, nl, dq.
  rewrite !StringFacts.append_assoc.
  repeat first
    [ rewrite cardCount_plain by eassumption
    | rewrite cardCount_literal by reflexivity ].
  generalize (cardCount rest). intros n. reflexivity.
Qed.







Lemma append_empty (s : string) : s +:+ "" = s.
Proof.
  induction s as [|x s IH]; [done|].
  rewrite StringFacts.append_cons. by f_equal.
Qed.

Lemma cardCount_placeholders fmt french :
  plainDates fmt french = true →
  cardCount (placeholderMarkup fmt french) = 3.
Proof.
  unfold plainDates. intros Hd.
  repeat (apply andb_true_iff in Hd as [Hd ?]).
  unfold placeholderMarkup.
  rewrite <- (append_empty (cardMarkup _ _ "2024-01-01" _ _ _)).
  rewrite !cardCount_placeholder_card; try done; by destruct french.
Qed.

Lemma append_cancel_l (a b c : string) : a +:+ b = a +:+ c → b = c.
Proof. apply (inj (String.app a)). Qed.

Lemma append_self (m rest : string) : m +:+ rest = rest → m = "".
Proof.
  intros Heq. apply (f_equal String.length) in Heq.
  rewrite StringFacts.length_append in Heq.
  destruct m; [done|]. cbn in Heq. lia.
Qed.

(** Two cards that differ at most in the read time differ in it if they
    differ at all. *)
Lemma cardMarkup_minutes link t d f m e :
  cardMarkup link t d f m e = cardMarkup link t d f "" e → m = "".
Proof.
  unfold cardMarkup, quoted. rewrite !StringFacts.append_assoc.
  intros Heq. repeat (apply append_cancel_l in Heq).
  rewrite StringFacts.append_nil in Heq.
  by apply append_self in Heq.
Qed.


(** ** Initial language *)

Lemma split_nonempty sep s : split sep s ≠ [].
Proof.
  destruct s as [|c rest]; simpl; [done|].
  case_bool_decide; [done|]. by destruct (split sep rest).
Qed.

(** The first piece of a split, computed character by character. *)
Lemma head_split_String sep c rest :
  head (split sep (String c rest)) =
    if bool_decide (c = sep) then Some EmptyString
    else String c <$> head (split sep rest).
Proof.
  simpl. case_bool_decide; [done|].
  pose proof (split_nonempty sep rest). by destruct (split sep rest).
Qed.

(** The primary subtag of a locale is [fr] exactly for the locale [fr]
    itself and for the locales that continue with a hyphen. *)
Lemma primary_subtag_fr (language : string) :
  head (split "-" language) = Some "fr" ↔
  language = "fr" ∨ ∃ rest, language = "fr-" +:+ rest.
Proof.
  split.
  - destruct language as [|c1 l1]; [done|].
    rewrite head_split_String. case_bool_decide; [done|].
    destruct l1 as [|c2 l2]; [done|].
    rewrite head_split_String. case_bool_decide; [done|].
    destruct l2 as [|c3 l3].
    { intros [= -> ->]. by left. }
    rewrite head_split_String. case_bool_decide as Hc3.
    { subst c3. intros [= -> ->]. right. by exists l3. }
    by destruct (head (split "-" l3)).
  - intros [->|[rest ->]]; [done|].
    change ("fr-" +:+ rest) with (String "f" (String "r" (String "-" rest))).
    by rewrite !head_split_String.
Qed.

Lemma switchLanguage_currentLanguage lang w :
  currentLanguage (switchLanguage lang w) = lang.
Proof.
  unfold switchLanguage, strict_eq. case_bool_decide as Heq; [done|].
  unfold updateTranslations. simpl.
  by destruct (metaDescription _).
Qed.

(** C1.  The language [handleInitialLanguage] switches to is a function
    of the stored value and the browser locale alone: it is the stored
    value when that is [en] or [fr]; for any other stored value, and for
    an absent key, it is [fr] exactly when the locale's primary subtag is
    [fr], and [en] otherwise. *)
Theorem handleInitialLanguage_resolves (w : World) :
  let storedLang := localStorage w !! "preferredLanguage" in
  let language := navigator_language w in
  let resolved := initialLang storedLang language in
  currentLanguage (handleInitialLanguage w) = str resolved
  ∧ (∀ w', localStorage w' !! "preferredLanguage" = storedLang →
           navigator_language w' = language →
           currentLanguage (handleInitialLanguage w') = str resolved)
  ∧ (∀ v, storedLang = Some v → v = "en" ∨ v = "fr" → resolved = v)
  ∧ ((∀ v, storedLang = Some v → v ≠ "en" ∧ v ≠ "fr") →
     (resolved = "fr" ↔
        language = "fr" ∨ ∃ rest, language = "fr-" +:+ rest)
     ∧ (resolved ≠ "fr" → resolved = "en")).
Proof.
  intros storedLang language resolved.
  split_and!.
  - apply switchLanguage_currentLanguage.
  - intros w' Hs Hl. unfold handleInitialLanguage.
    rewrite switchLanguage_currentLanguage, Hs, Hl. done.
  - intros v Hv Hcase. unfold resolved, initialLang. rewrite Hv.
    by destruct Hcase as [->| ->].
  - intros Hother.
    assert (truthy storedLang && includes ["en"; "fr"] storedLang = false)
      as Hguard.
    { destruct storedLang as [v|] eqn:Hv; [|done].
      destruct (Hother v eq_refl) as [Hen Hfr].
      apply andb_false_intro2. simpl.
      apply bool_decide_eq_false.
      rewrite !elem_of_cons, elem_of_nil. tauto. }
    unfold resolved, initialLang. rewrite Hguard.
    rewrite <- primary_subtag_fr.
    destruct (head (split "-" language)) as [b|] eqn:Hb; simpl.
    + case_bool_decide as Hin.
      * apply list_elem_of_singleton in Hin as ->. done.
      * split; [|done]. split; [done|].
        intros [= ->]. destruct Hin. apply list_elem_of_singleton. done.
    + split; [|done]. split; done.
Qed.

(** The rule at a Canadian-French browser with a stale stored value. *)
Lemma handleInitialLanguage_resolves_witness :
  ∃ w, localStorage w !! "preferredLanguage" = Some "de"
       ∧ navigator_language w = "fr-CA"
       ∧ currentLanguage (handleInitialLanguage w) = str "fr".
Proof.
  set (w := mkWorld (str "en") [] false {[ "preferredLanguage" := "de" ]}
              "fr-CA" "en" "" None [] None [] []).
  exists w.
  destruct (handleInitialLanguage_resolves w) as (Hcur & _ & _ & Hfall).
  split_and!; [by vm_compute | done |].
  rewrite Hcur. apply (f_equal str).
  apply Hfall.
  - intros v. vm_compute. intros [= <-]. split; discriminate.
  - right. by exists "CA".
Defined.

(** ** Translated text *)

(** C6.  Under the active language [fr], the object with only an [en]
    entry ["A"] is rendered as ["A"], the object with [en] entry ["A"] and
    [fr] entry ["B"] is rendered as ["B"]; a plain string is returned
    unchanged, whatever the active language. *)
Theorem getTranslatedText_examples (w : World) (s : string) :
  (currentLanguage w = str "fr" →
   getTranslatedText w (Translations {[ "en" := "A" ]}) = "A"
   ∧ getTranslatedText w (Translations {[ "en" := "A"; "fr" := "B" ]}) = "B")
  ∧ getTranslatedText w (Plain s) = s.
Proof.
  split; [|done].
  intros Hfr. unfold getTranslatedText. rewrite Hfr. simpl.
  split.
  - rewrite lookup_singleton_ne by done. by rewrite lookup_singleton_eq.
  - rewrite lookup_insert_ne by done. by rewrite lookup_singleton_eq.
Qed.

Lemma getTranslatedText_examples_witness :
  getTranslatedText frenchPage (Translations {[ "en" := "A" ]}) = "A"
  ∧ getTranslatedText frenchPage
      (Translations {[ "en" := "A"; "fr" := "B" ]}) = "B".
Proof.
  apply (proj1 (getTranslatedText_examples frenchPage "")). reflexivity.
Defined.










(** ** Switching to the language that is already active *)

(** C8.  [switchLanguage] called with the current language returns at its
    first line: the whole state (storage, document language, title, meta
    description, every element, the instance fields) is what it was. *)
Theorem switchLanguage_same_language (w : World) :
  switchLanguage (currentLanguage w) w = w.
Proof.
  unfold switchLanguage, strict_eq.
  by rewrite bool_decide_eq_true_2.
Qed.

(** ** Read time *)

(** A post whose read time is zero minutes gets no suffix: its meta line
    is that of a post without the field. *)
Lemma readTime_zero_not_shown :
  let post := mkPost (Plain "Note") "2024-02-01" (Plain "Short.") "#"
                (Some 0%N) in
  let bare := mkPost (Plain "Note") "2024-02-01" (Plain "Short.") "#" None in
  ¬ showsReadTime post
  ∧ readTimeSuffix post = ""
  ∧ postCard isoDate blankPage post = postCard isoDate blankPage bare.
Proof.
  split_and!; [|reflexivity|reflexivity].
  intros Hshows. specialize (Hshows 0%N eq_refl). vm_compute in Hshows.
  discriminate.
Qed.

(** C7 (amended).  On the card of a post, in either template, the meta
    line carries the text "• N min read", N being the field in decimal
    digits, when the field is an integer from 1 to [maxSafeInteger]; when
    the field is absent or zero that line is empty; and the line is empty
    only then. *)
Theorem readTime_on_card fmt (w : World) (post : BlogPost) :
  ordinaryLanguage w →
  let card link minutes :=
    cardMarkup link (getTranslatedText w (title post)) (date post)
      (fmt (localeOf w) (date post)) minutes
      (getTranslatedText w (excerpt post)) in
  (∀ n, readTime post = Some n → n ≠ 0%N → (n ≤ maxSafeInteger)%N →
        postCard fmt w post =
          card (postLink (url post)) ("• " +:+ pretty n +:+ " min read")
        ∧ placeholderCard fmt w post =
            card (placeholderLink (url post))
              ("• " +:+ pretty n +:+ " min read"))
  ∧ (readTime post = None ∨ readTime post = Some 0%N →
     postCard fmt w post = card (postLink (url post)) ""
     ∧ placeholderCard fmt w post = card (placeholderLink (url post)) "")
  ∧ (postCard fmt w post = card (postLink (url post)) ""
     ∨ placeholderCard fmt w post = card (placeholderLink (url post)) "" →
     readTime post = None ∨ readTime post = Some 0%N).
Proof.
  intros _ card. unfold card.
  rewrite postCard_markup, placeholderCard_markup, readTimeSuffix_minutesText.
  split_and!.
  - intros n -> Hn _. by destruct n.
  - by intros [-> | ->].
  - intros [Heq|Heq]; apply cardMarkup_minutes in Heq;
      destruct (readTime post) as [[|p]|]; auto; discriminate.
Qed.

Lemma readTime_on_card_witness :
  postCard isoDate blankPage
    (mkPost (Plain "Note") "2024-02-01" (Plain "Short.") "#" (Some 5%N))
  = cardMarkup (postLink "#") "Note" "2024-02-01" "2024-02-01"
      "• 5 min read" "Short.".
Proof.
  apply (proj1 (readTime_on_card isoDate blankPage
                  (mkPost (Plain "Note") "2024-02-01" (Plain "Short.") "#"
                     (Some 5%N)) eq_refl) 5%N);
    [reflexivity | discriminate | by vm_compute].
Defined.

(** ** Rendering the post list *)


(** The two renderers write the container and nothing else, and write it
    only if it exists. *)
Lemma renderBlogPlaceholder_writes fmt w :
  renderBlogPlaceholder fmt w =
    set_blogContainer
      (match blogContainer w with
       | Some _ => Some (join (map (placeholderCard fmt w) placeholderPosts))
       | None => None
       end) w.
Proof.
  unfold renderBlogPlaceholder.
  destruct w as [l bp nav ls nl dl dt md els [html|] co rq]; reflexivity.
Qed.

Lemma renderBlogPosts_writes fmt w :
  renderBlogPosts fmt w =
    set_blogContainer
      (match blogContainer w with
       | Some _ =>
           Some (match blogPosts w with
                 | [] => join (map (placeholderCard fmt w) placeholderPosts)
                 | _ :: _ => join (map (postCard fmt w) (take 3 (blogPosts w)))
                 end)
       | None => None
       end) w.
Proof.
  unfold renderBlogPosts. rewrite renderBlogPlaceholder_writes.
  destruct w as [l bp nav ls nl dl dt md els [html|] co rq];
    [|reflexivity].
  destruct bp; reflexivity.
Qed.




(** ** Loading the posts *)


(** The path through [catch]: the exception is logged and the placeholder
    is rendered.  It is taken after a failure, and also after a 2xx answer
    whose body is [null]. *)
Lemma loadBlogPosts_caught_run fmt outcome w :
  failed outcome ∨ answeredNull outcome →
  ∃ error,
    loadBlogPosts fmt outcome w =
      (Ok tt,
       renderBlogPlaceholder fmt
         (set_console
            (console w ++ [Warn "Could not load blog posts:" error])
            (set_requests (requests w ++ ["blog/posts.json"]) w)))
    ∧ (answeredNull outcome → error = PropertyOfNull).
Proof.
  intros [Hfail|(r & -> & Hok & Hbody)].
  - destruct outcome as [|r].
    + exists FetchTypeError. split; [done|].
      by intros (r & ? & _).
    + destruct (ok r) eqn:Hok.
      * destruct Hfail as [Hfail|Hbody]; [congruence|].
        exists JsonSyntaxError. split.
        -- unfold loadBlogPosts, try_catch, bind, fetch, json, throw.
           cbn beta iota. rewrite Hok. cbn [negb]. cbv iota.
           by rewrite Hbody.
        -- intros (r' & [= <-] & _ & Hnull). congruence.
      * exists (Error "Failed to load blog posts"). split.
        -- unfold loadBlogPosts, try_catch, bind, fetch, throw.
           cbn beta iota. by rewrite Hok.
        -- intros (r' & [= <-] & Hok' & _). congruence.
  - exists PropertyOfNull. split; [|done].
    unfold loadBlogPosts, try_catch, bind, fetch, json, data_posts, throw,
      ret.
    cbn beta iota. rewrite Hok. cbn [negb]. cbv iota. by rewrite Hbody.
Qed.

Lemma loadBlogPosts_failure_run fmt outcome w :
  failed outcome →
  ∃ error,
    loadBlogPosts fmt outcome w =
      (Ok tt,
       renderBlogPlaceholder fmt
         (set_console
            (console w ++ [Warn "Could not load blog posts:" error])
            (set_requests (requests w ++ ["blog/posts.json"]) w))).
Proof.
  intros Hfail.
  destruct (loadBlogPosts_caught_run fmt outcome w (or_introl Hfail))
    as (error & Hrun & _).
  by exists error.
Qed.


(** C2.  Whatever the failure, [loadBlogPosts] completes normally, has
    issued the one request, has logged one warning, and has put the
    markup of the three placeholder cards, in French under [fr] and in
    English otherwise, in the container; nothing else on the page
    changes.  With dates that open no tag the container holds exactly
    three [<article] elements. *)
Theorem loadBlogPosts_failure fmt (outcome : FetchOutcome) (w : World) :
  failed outcome →
  is_Some (blogContainer w) →
  ordinaryLanguage w →
  let french := bool_decide (currentLanguage w = str "fr") in
  ∃ error,
    loadBlogPosts fmt outcome w =
      (Ok tt,
       set_blogContainer (Some (placeholderMarkup fmt french))
         (set_console
            (console w ++ [Warn "Could not load blog posts:" error])
            (set_requests (requests w ++ ["blog/posts.json"]) w)))
    ∧ (plainDates fmt french = true →
       cardCount (placeholderMarkup fmt french) = 3).
Proof.
  intros Hfail [html Hc] _ french.
  destruct (loadBlogPosts_failure_run fmt outcome w Hfail) as [error Hrun].
  exists error. split; [|apply cardCount_placeholders].
  rewrite Hrun, renderBlogPlaceholder_writes.
  cbn [blogContainer set_console set_requests]. rewrite Hc.
  by rewrite placeholderCards_markup.
Qed.

(** A 404 answer on the blank page. *)
Lemma loadBlogPosts_failure_witness :
  ∃ error w',
    loadBlogPosts isoDate (Responded (mkResponse 404 Malformed)) blankPage
      = (Ok tt, w')
    ∧ blogContainer w' = Some (placeholderMarkup isoDate false)
    ∧ console w' = [Warn "Could not load blog posts:" error]
    ∧ requests w' = ["blog/posts.json"]
    ∧ cardCount (placeholderMarkup isoDate false) = 3.
Proof.
  assert (failed (Responded (mkResponse 404 Malformed))) as Hfail
    by (left; reflexivity).
  assert (is_Some (blogContainer blankPage)) as Hc by (by eexists).
  destruct (loadBlogPosts_failure isoDate _ blankPage Hfail Hc eq_refl)
    as (error & Hrun & Hcount).
  exists error. eexists. split; [exact Hrun|].
  split_and!; [reflexivity|reflexivity|reflexivity|].
  apply Hcount. reflexivity.
Defined.







(** ** Reveal on scroll is one-shot *)

Module AnimationObserverFacts.
Import AnimationObserver.

Lemma styleOf_set_style el' f p el :
  styleOf (set_style el' f p) el =
    if decide (el' = el) then f (styleOf p el) else styleOf p el.
Proof.
  unfold styleOf, set_style. simpl.
  destruct (decide (el' = el)) as [->|Hne].
  - by rewrite lookup_insert_eq.
  - by rewrite lookup_insert_ne.
Qed.

(** What one entry does to the style and the watch of an element. *)
Lemma handleEntry_styleOf p entry el :
  styleOf (handleEntry p entry) el =
    if isIntersecting entry && bool_decide (target entry = el)
    then mkStyle "1" "translateY(0)" (transition (styleOf p el))
    else styleOf p el.
Proof.
  unfold handleEntry. destruct (isIntersecting entry); [|done].
  change (styleOf (unobserve ?t ?q) el) with (styleOf q el).
  rewrite !styleOf_set_style. simpl.
  case_bool_decide; by case_decide.
Qed.

Lemma handleEntry_observed p entry el :
  el ∈ observed (handleEntry p entry) ↔
  el ∈ observed p ∧ ¬ (isIntersecting entry = true ∧ target entry = el).
Proof.
  unfold handleEntry. destruct (isIntersecting entry); simpl.
  - rewrite elem_of_difference, elem_of_singleton.
    intuition congruence.
  - intuition congruence.
Qed.

(** An element that is revealed and no longer watched stays exactly so,
    whatever entry is handled next. *)
Lemma handleEntry_stable p entry el :
  revealed (styleOf p el) → el ∉ observed p →
  styleOf (handleEntry p entry) el = styleOf p el
  ∧ el ∉ observed (handleEntry p entry).
Proof.
  intros [Hop Htr] Hunobs. split.
  - rewrite handleEntry_styleOf.
    destruct (isIntersecting entry && bool_decide (target entry = el));
      [|done].
    destruct (styleOf p el) as [o t tr]. simpl in *. by subst.
  - rewrite handleEntry_observed. tauto.
Qed.

Lemma handleIntersection_stable entries p el :
  revealed (styleOf p el) → el ∉ observed p →
  styleOf (handleIntersection entries p) el = styleOf p el
  ∧ el ∉ observed (handleIntersection entries p).
Proof.
  unfold handleIntersection. revert p.
  induction entries as [|entry entries IH]; intros p Hrev Hunobs; [done|].
  simpl. destruct (handleEntry_stable p entry el Hrev Hunobs) as [Hs Ho].
  destruct (IH (handleEntry p entry)) as [Hs' Ho']; [by rewrite Hs|done|].
  split; [by rewrite Hs', Hs|done].
Qed.

Lemma handleAll_stable batches p el :
  revealed (styleOf p el) → el ∉ observed p →
  styleOf (handleAll batches p) el = styleOf p el
  ∧ el ∉ observed (handleAll batches p).
Proof.
  unfold handleAll. revert p.
  induction batches as [|entries batches IH]; intros p Hrev Hunobs; [done|].
  simpl.
  destruct (handleIntersection_stable entries p el Hrev Hunobs) as [Hs Ho].
  destruct (IH (handleIntersection entries p)) as [Hs' Ho'];
    [by rewrite Hs|done|].
  split; [by rewrite Hs', Hs|done].
Qed.

(** A batch that reports the element as intersecting leaves it revealed
    and unwatched. *)
Lemma handleIntersection_reveals entries p el :
  mkEntry el true ∈ entries →
  revealed (styleOf (handleIntersection entries p) el)
  ∧ el ∉ observed (handleIntersection entries p).
Proof.
  unfold handleIntersection. revert p.
  induction entries as [|entry entries IH]; intros p Hin.
  { by apply elem_of_nil in Hin. }
  simpl. apply elem_of_cons in Hin as [<-|Hin]; [|by apply IH].
  set (p1 := handleEntry p (mkEntry el true)).
  assert (revealed (styleOf p1 el)) as Hrev.
  { unfold p1. rewrite handleEntry_styleOf. simpl.
    by rewrite bool_decide_eq_true_2. }
  assert (el ∉ observed p1) as Hunobs.
  { unfold p1. rewrite handleEntry_observed. simpl. tauto. }
  destruct (handleIntersection_stable entries p1 el Hrev Hunobs) as [Hs Ho].
  unfold handleIntersection in Hs, Ho. by rewrite Hs.
Qed.

(** [init] leaves every queried element hidden and watched. *)
Lemma init_hides_and_watches els p el :
  el ∈ els →
  hidden (styleOf (init false els p) el) ∧ el ∈ observed (init false els p).
Proof.
  unfold init.
  set (step := λ (p : Page) (el : nat), observe el _).
  assert (∀ q x, x = el ∨ (hidden (styleOf q el) ∧ el ∈ observed q) →
                 hidden (styleOf (step q x) el) ∧ el ∈ observed (step q x))
    as Hstep.
  { intros q x Hcase. unfold step.
    change (styleOf (observe ?t ?r) el) with (styleOf r el).
    rewrite !styleOf_set_style. simpl.
    destruct (decide (x = el)) as [->|Hne].
    - split; [done|]. apply elem_of_union_l, elem_of_singleton. done.
    - destruct Hcase as [?|[Hh Ho]]; [done|].
      split; [done|]. by apply elem_of_union_r. }
  clearbody step. revert p.
  induction els as [|x els IH]; intros p Hin.
  { by apply elem_of_nil in Hin. }
  simpl. apply elem_of_cons in Hin as [->|Hin]; [|by apply IH].
  clear IH. generalize (Hstep p x (or_introl eq_refl)).
  generalize (step p x). clear p.
  induction els as [|y els IH]; intros q Hq; [done|].
  simpl. apply IH. apply Hstep. by right.
Qed.

End AnimationObserverFacts.

(** C9.  Every element the observer starts to watch is hidden at first.
    The batch of entries that first reports it as intersecting puts it in
    the resting visible state and stops the watch; from then on no
    sequence of further callback invocations changes its style or watches
    it again. *)
Theorem reveal_is_one_shot (els : list nat) (p0 : AnimationObserver.Page)
  (el : nat) (entries : list AnimationObserver.Entry)
  (later : list (list AnimationObserver.Entry)) :
  el ∈ els →
  AnimationObserver.mkEntry el true ∈ entries →
  let watched := AnimationObserver.init false els p0 in
  let shown := AnimationObserver.handleIntersection entries watched in
  let after := AnimationObserver.handleAll later shown in
  (AnimationObserver.hidden (AnimationObserver.styleOf watched el)
   ∧ el ∈ AnimationObserver.observed watched)
  ∧ (AnimationObserver.revealed (AnimationObserver.styleOf shown el)
     ∧ el ∉ AnimationObserver.observed shown)
  ∧ (AnimationObserver.styleOf after el = AnimationObserver.styleOf shown el
     ∧ el ∉ AnimationObserver.observed after).
Proof.
  intros Hel Hin watched shown after.
  pose proof (AnimationObserverFacts.handleIntersection_reveals
                entries watched el Hin) as [Hrev Hunobs].
  split_and!; try done.
  - by apply AnimationObserverFacts.init_hides_and_watches.
  - by apply AnimationObserverFacts.init_hides_and_watches.
  - by apply AnimationObserverFacts.handleAll_stable.
  - by apply AnimationObserverFacts.handleAll_stable.
Qed.

(** Card 2 of three scrolls in, out and in again. *)
Lemma reveal_is_one_shot_witness :
  let watched :=
    AnimationObserver.init false [1; 2; 3]
      (AnimationObserver.mkPage ∅ ∅) in
  let shown :=
    AnimationObserver.handleIntersection
      [AnimationObserver.mkEntry 1 false; AnimationObserver.mkEntry 2 true]
      watched in
  let after :=
    AnimationObserver.handleAll
      [[AnimationObserver.mkEntry 2 false];
       [AnimationObserver.mkEntry 2 true; AnimationObserver.mkEntry 3 true]]
      shown in
  AnimationObserver.styleOf after 2 = AnimationObserver.styleOf shown 2
  ∧ 2 ∉ AnimationObserver.observed after.
Proof.
  intros watched shown after.
  apply (reveal_is_one_shot [1; 2; 3] (AnimationObserver.mkPage ∅ ∅) 2
           [AnimationObserver.mkEntry 1 false; AnimationObserver.mkEntry 2 true]
           [[AnimationObserver.mkEntry 2 false];
            [AnimationObserver.mkEntry 2 true; AnimationObserver.mkEntry 3 true]]).
  - apply elem_of_cons. right. apply elem_of_cons. by left.
  - apply elem_of_cons. right. apply elem_of_cons. by left.
Defined.

(** ** The active language and the language buttons *)

(** A switch to a different language makes it the active one and writes
    it to the storage key and to the document's language attribute. *)
Lemma switchLanguage_switches lang w :
  lang ≠ currentLanguage w →
  let w' := switchLanguage lang w in
  currentLanguage w' = lang
  ∧ localStorage w' !! "preferredLanguage" = Some (toString lang)
  ∧ documentElement_lang w' = toString lang.
Proof.
  intros Hne w'. split; [apply switchLanguage_currentLanguage|].
  unfold w', switchLanguage, strict_eq.
  rewrite bool_decide_eq_false_2 by done. simpl.
  split; [|done]. by rewrite lookup_insert_eq.
Qed.

(** With an argument that is [en] or [fr] the active language stays one
    of the two. *)
Lemma switchLanguage_valid_argument lang w :
  lang = "en" ∨ lang = "fr" →
  let w' := switchLanguage (str lang) w in
  currentLanguage w' = str "en" ∨ currentLanguage w' = str "fr".
Proof.
  intros Hlang w'. unfold w'. rewrite switchLanguage_currentLanguage.
  destruct Hlang as [-> | ->]; [by left|by right].
Qed.

(** The click listener hands [dataset.lang] of the event target to
    [switchLanguage] as it is. *)
Lemma langButtonClick_currentLanguage target w :
  currentLanguage (langButtonClick target w) =
    of_option (dataset target !! "lang").
Proof. apply switchLanguage_currentLanguage. Qed.

(** C5.  The script at the two inputs that break the invariant of the
    claim (the active language is [en] or [fr] in every reachable state).
    On a freshly initialised English page, a click on a language button
    whose [data-lang] is [de] makes [de] the active language, the stored
    preference and the document language, and sets the title to
    [undefined]; a click whose target carries no [data-lang] makes the
    active language [undefined] and stores the string [undefined]. *)
Theorem langButtonClick_unvalidated :
  let w := handleInitialLanguage (constructed loadedPage) in
  currentLanguage w = str "en"
  ∧ (let w' := langButtonClick deButton w in
     currentLanguage w' = str "de"
     ∧ localStorage w' !! "preferredLanguage" = Some "de"
     ∧ documentElement_lang w' = "de"
     ∧ document_title w' = "undefined")
  ∧ (let w' := langButtonClick flagIcon w in
     currentLanguage w' = undefined
     ∧ localStorage w' !! "preferredLanguage" = Some "undefined"
     ∧ documentElement_lang w' = "undefined").
Proof. by vm_compute. Qed.

(** * Further properties of the script *)

(** ** What a language switch does to the page *)

Lemma updateTranslations_elements w :
  elements (updateTranslations w) =
    map (λ el, placeholderPass (toString (currentLanguage w))
                 (textPass (toString (currentLanguage w)) el))
      (elements w).
Proof.
  unfold updateTranslations, forEach_matching. cbn -[truthy].
  destruct (metaDescription w); cbn -[truthy]; by rewrite !map_map.
Qed.

Lemma switchLanguage_elements lang w :
  lang ≠ currentLanguage w →
  elements (switchLanguage lang w) =
    map (λ el, placeholderPass (toString lang)
                 (textPass (toString lang) (buttonPass lang el)))
      (elements w).
Proof.
  intros Hne. unfold switchLanguage, strict_eq at 1.
  rewrite bool_decide_eq_false_2 by done.
  cbn -[updateTranslations]. rewrite updateTranslations_elements.
  unfold forEach_matching. cbn. by rewrite !map_map.
Qed.

Lemma passes_dataset lang key key' el :
  dataset (placeholderPass key (textPass key' (buttonPass lang el)))
  = dataset el.
Proof.
  unfold placeholderPass, textPass, buttonPass.
  repeat (case_match; simpl); done.
Qed.

Lemma passes_classList lang key key' el :
  classList (placeholderPass key (textPass key' (buttonPass lang el)))
  = classList (buttonPass lang el).
Proof.
  unfold placeholderPass, textPass.
  repeat (case_match; simpl); done.
Qed.

(** The fields a switch leaves alone, whether or not it takes effect. *)
Lemma switchLanguage_untouched lang w :
  let w' := switchLanguage lang w in
  blogContainer w' = blogContainer w
  ∧ blogPosts w' = blogPosts w
  ∧ console w' = console w
  ∧ requests w' = requests w
  ∧ navigator_language w' = navigator_language w
  ∧ mobileNavOpen w' = mobileNavOpen w.
Proof.
  intros w'. unfold w', switchLanguage.
  destruct (strict_eq lang (currentLanguage w)); [done|].
  unfold updateTranslations, forEach_matching. cbn -[truthy].
  destruct (metaDescription w); cbn -[truthy]; done.
Qed.

(** X1.  A switch to a plain language code (lower-case letters, not
    [constructor]) never touches the loaded posts, the console, the request log, the browser
    locale or the navigation flag, and it writes no storage key except
    [preferredLanguage]. *)
Theorem switchLanguage_frame (lang : Val) (w : World) :
  plainCode lang = true →
  let w' := switchLanguage lang w in
  (blogPosts w' = blogPosts w
   ∧ console w' = console w
   ∧ requests w' = requests w
   ∧ navigator_language w' = navigator_language w
   ∧ mobileNavOpen w' = mobileNavOpen w)
  ∧ (∀ key, key ≠ "preferredLanguage" →
            localStorage w' !! key = localStorage w !! key).
Proof.
  intros _ w'. split; [apply switchLanguage_untouched|]. unfold w'.
  destruct (decide (lang = currentLanguage w)) as [Heq|Hne].
  { unfold switchLanguage, strict_eq.
    by rewrite bool_decide_eq_true_2 by done. }
  intros key Hkey. unfold switchLanguage, strict_eq.
  rewrite bool_decide_eq_false_2 by done.
  cbn -[updateTranslations]. rewrite lookup_insert_ne by done.
  unfold updateTranslations, forEach_matching. cbn -[truthy].
  by destruct (metaDescription w).
Qed.

(** X2.  After a switch to another language, a language button carries
    the class [active] exactly when its [data-lang] is that language (a
    button without [data-lang] counts as [undefined]); its other classes,
    and the classes of every other element, are as before. *)
Theorem switchLanguage_buttons (lang : Val) (w : World) (i : nat)
  (el : Element) :
  lang ≠ currentLanguage w →
  elements w !! i = Some el →
  ∃ el', elements (switchLanguage lang w) !! i = Some el'
    ∧ ("lang-btn" ∈ classList el →
       ("active" ∈ classList el' ↔ of_option (dataset el !! "lang") = lang)
       ∧ ∀ c, c ≠ "active" → (c ∈ classList el' ↔ c ∈ classList el))
    ∧ ("lang-btn" ∉ classList el → classList el' = classList el).
Proof.
  intros Hne Hel. rewrite switchLanguage_elements by done.
  rewrite list_lookup_fmap, Hel. simpl.
  eexists. split; [reflexivity|]. rewrite passes_classList.
  unfold buttonPass. split.
  - intros Hbtn. rewrite bool_decide_eq_true_2 by done.
    unfold classList_toggle, strict_eq. simpl.
    case_bool_decide as Hmatch; split.
    + split; [done|]. intros _. apply elem_of_union_l, elem_of_singleton.
      done.
    + intros c Hc. rewrite elem_of_union, elem_of_singleton. tauto.
    + rewrite elem_of_difference, elem_of_singleton. tauto.
    + intros c Hc. rewrite elem_of_difference, elem_of_singleton. tauto.
  - intros Hbtn. by rewrite bool_decide_eq_false_2.
Qed.

Lemma switchLanguage_buttons_witness :
  ∃ el', elements (switchLanguage (str "fr") loadedPage) !! 1 = Some el'
         ∧ "active" ∈ classList el'.
Proof.
  destruct (switchLanguage_buttons (str "fr") loadedPage 1 frButton)
    as (el' & Hel' & Hbtn & _); [discriminate|reflexivity|].
  exists el'. split; [exact Hel'|].
  assert ("lang-btn" ∈ classList frButton) as Hin
    by (vm_compute; reflexivity).
  destruct (Hbtn Hin) as [Hactive _]. apply Hactive. reflexivity.
Defined.

(** X3.  After a switch to another language with a plain code
    (lower-case letters, not [constructor]), an element that carries
    [data-en] or [data-fr] and has a non-empty entry for that language has
    this entry as its text content. *)
Theorem switchLanguage_text (lang : Val) (w : World) (i : nat)
  (el : Element) :
  lang ≠ currentLanguage w →
  plainCode lang = true →
  elements w !! i = Some el →
  ∃ el', elements (switchLanguage lang w) !! i = Some el'
    ∧ (∀ t, dataset el !! toString lang = Some t → t ≠ "" →
            is_Some (dataset el !! "en") ∨ is_Some (dataset el !! "fr") →
            textContent el' = t).
Proof.
  intros Hne _ Hel. rewrite switchLanguage_elements by done.
  rewrite list_lookup_fmap, Hel. simpl.
  eexists. split; [reflexivity|].
  assert (∀ key e, textContent (placeholderPass key e) = textContent e)
    as Hph.
  { intros key e. unfold placeholderPass. by repeat case_match. }
  rewrite Hph. unfold textPass.
  assert (dataset (buttonPass lang el) = dataset el) as ->.
  { unfold buttonPass. by case_match. }
  intros t Ht Hnonempty Hsel. rewrite Ht.
  rewrite (proj2 (orb_true_iff _ _)).
  - destruct t; done.
  - destruct Hsel; [left|right]; by apply bool_decide_eq_true_2.
Qed.

Lemma switchLanguage_text_witness :
  ∃ el', elements (switchLanguage (str "fr") loadedPage) !! 3 = Some el'
         ∧ textContent el' = "Projets".
Proof.
  destruct (switchLanguage_text (str "fr") loadedPage 3 projectsHeading)
    as (el' & Hel' & Hshow); [discriminate|reflexivity|reflexivity|].
  exists el'. split; [exact Hel'|].
  apply (Hshow "Projets"); [by vm_compute|discriminate|].
  left. exists "Projects". by vm_compute.
Defined.

(** Each pass rewrites one field of the element and reads only its
    [dataset]. *)
Lemma textPass_fields key el :
  textPass key el =
    mkElement (classList el) (dataset el)
      (if (bool_decide (is_Some (dataset el !! "en"))
           || bool_decide (is_Some (dataset el !! "fr")))
          && truthy (dataset el !! key)
       then default "" (dataset el !! key) else textContent el)
      (placeholder el).
Proof.
  destruct el as [cl ds t p]. unfold textPass, set_textContent.
  cbn -[truthy].
  destruct (bool_decide (is_Some (ds !! "en"))
            || bool_decide (is_Some (ds !! "fr")));
    destruct (truthy (ds !! key)); reflexivity.
Qed.

Lemma placeholderPass_fields key el :
  placeholderPass key el =
    mkElement (classList el) (dataset el) (textContent el)
      (if bool_decide (is_Some (dataset el !! (key +:+ "Placeholder")))
          && truthy (dataset el !! (key +:+ "Placeholder"))
       then default "" (dataset el !! (key +:+ "Placeholder"))
       else placeholder el).
Proof.
  destruct el as [cl ds t p]. unfold placeholderPass, set_placeholder.
  cbn -[truthy].
  destruct (bool_decide (is_Some (ds !! (key +:+ "Placeholder"))));
    destruct (truthy (ds !! (key +:+ "Placeholder"))); reflexivity.
Qed.

(** Translating one element twice under the same language is translating
    it once. *)
Lemma translate_element_twice key el :
  placeholderPass key (textPass key (placeholderPass key (textPass key el)))
  = placeholderPass key (textPass key el).
Proof.
  rewrite !placeholderPass_fields, !textPass_fields. cbn -[truthy].
  f_equal.
  - by destruct (_ && truthy (dataset el !! key)).
  - by destruct (_ && truthy (dataset el !! (key +:+ "Placeholder"))).
Qed.

Lemma World_eq (w1 w2 : World) :
  currentLanguage w1 = currentLanguage w2 →
  blogPosts w1 = blogPosts w2 →
  mobileNavOpen w1 = mobileNavOpen w2 →
  localStorage w1 = localStorage w2 →
  navigator_language w1 = navigator_language w2 →
  documentElement_lang w1 = documentElement_lang w2 →
  document_title w1 = document_title w2 →
  metaDescription w1 = metaDescription w2 →
  elements w1 = elements w2 →
  blogContainer w1 = blogContainer w2 →
  console w1 = console w2 →
  requests w1 = requests w2 →
  w1 = w2.
Proof. destruct w1, w2. simpl. by intros -> -> -> -> -> -> -> -> -> -> -> ->. Qed.

(** The fields of the page after [updateTranslations], one by one. *)
Lemma updateTranslations_fields w :
  let w' := updateTranslations w in
  let key := toString (currentLanguage w) in
  currentLanguage w' = currentLanguage w
  ∧ blogPosts w' = blogPosts w
  ∧ mobileNavOpen w' = mobileNavOpen w
  ∧ localStorage w' = localStorage w
  ∧ navigator_language w' = navigator_language w
  ∧ documentElement_lang w' = documentElement_lang w
  ∧ document_title w' = toString (of_option (titles !! key))
  ∧ metaDescription w' =
      match metaDescription w with
      | Some _ => Some (toString (of_option (descriptions !! key)))
      | None => None
      end
  ∧ blogContainer w' = blogContainer w
  ∧ console w' = console w
  ∧ requests w' = requests w.
Proof.
  unfold updateTranslations, forEach_matching. cbn -[truthy titles descriptions].
  destruct (metaDescription w) eqn:Hmd; cbn -[truthy titles descriptions];
    by split_and!.
Qed.

(** X4.  [updateTranslations] is idempotent: running it again under the
    same language changes nothing, neither texts and placeholders nor
    title and meta description. *)
Theorem updateTranslations_idempotent (w : World) :
  updateTranslations (updateTranslations w) = updateTranslations w.
Proof.
  pose proof (updateTranslations_fields w)
    as (Hl & Hbp & Hnav & Hls & Hnl & Hdl & Hdt & Hmd & Hbc & Hco & Hrq).
  pose proof (updateTranslations_fields (updateTranslations w))
    as (Hl' & Hbp' & Hnav' & Hls' & Hnl' & Hdl' & Hdt' & Hmd' & Hbc' & Hco'
        & Hrq').
  cbn zeta in *.
  apply World_eq;
    [congruence|congruence|congruence|congruence|congruence|congruence
    | | | |congruence|congruence|congruence].
  - rewrite Hdt', Hdt, Hl. done.
  - rewrite Hmd', Hmd, Hl. by destruct (metaDescription w).
  - rewrite (updateTranslations_elements (updateTranslations w)), Hl.
    rewrite updateTranslations_elements, map_map.
    apply map_ext. intros el. apply translate_element_twice.
Qed.

(** ** The initial language *)

Lemma initialLang_range storedLang language :
  initialLang storedLang language = "en"
  ∨ initialLang storedLang language = "fr".
Proof.
  unfold initialLang.
  destruct (truthy storedLang && includes ["en"; "fr"] storedLang) eqn:Hst.
  - apply andb_true_iff in Hst as [_ Hin].
    destruct storedLang as [v|]; [|done]. simpl in *.
    apply bool_decide_eq_true in Hin.
    rewrite !elem_of_cons, elem_of_nil in Hin. tauto.
  - destruct (head (split "-" language)) as [b|]; simpl; [|by left].
    case_bool_decide as Hin; [|by left].
    apply list_elem_of_singleton in Hin. by right.
Qed.

(** X5.  Whatever the storage holds and whatever locale the browser
    reports, the language that is active after [handleInitialLanguage] is
    [en] or [fr]. *)
Theorem handleInitialLanguage_range (w : World) :
  currentLanguage (handleInitialLanguage w) = str "en"
  ∨ currentLanguage (handleInitialLanguage w) = str "fr".
Proof.
  unfold handleInitialLanguage. rewrite switchLanguage_currentLanguage.
  destruct (initialLang_range (localStorage w !! "preferredLanguage")
              (navigator_language w)) as [-> | ->]; [by left|by right].
Qed.

(** X6.  On an instance whose language is still the constructor's [en]:
    when the initial language resolves to [en], [handleInitialLanguage]
    changes nothing at all, so the storage key is not written (an absent
    or invalid stored value stays as it is) and the document language
    attribute is not set; when it resolves to [fr], [fr] is stored and
    set as document language. *)
Theorem handleInitialLanguage_fresh (w : World) :
  currentLanguage w = str "en" →
  let resolved :=
    initialLang (localStorage w !! "preferredLanguage")
      (navigator_language w) in
  let w' := handleInitialLanguage w in
  (resolved = "en" → w' = w)
  ∧ (resolved ≠ "en" →
     currentLanguage w' = str "fr"
     ∧ localStorage w' !! "preferredLanguage" = Some "fr"
     ∧ documentElement_lang w' = "fr").
Proof.
  intros Hen resolved w'. split.
  - intros Hres. unfold w', handleInitialLanguage. fold resolved.
    rewrite Hres. unfold switchLanguage, strict_eq.
    by rewrite bool_decide_eq_true_2.
  - intros Hres.
    assert (resolved = "fr") as Hfr.
    { destruct (initialLang_range (localStorage w !! "preferredLanguage")
                  (navigator_language w)); [done|done]. }
    unfold w', handleInitialLanguage. fold resolved. rewrite Hfr.
    apply (switchLanguage_switches (str "fr") w). by rewrite Hen.
Qed.

(** An English browser with the stale stored value [de]: nothing is
    written. *)
Lemma handleInitialLanguage_fresh_witness :
  let w := set_localStorage {[ "preferredLanguage" := "de" ]} blankPage in
  handleInitialLanguage w = w.
Proof.
  intros w.
  apply (proj1 (handleInitialLanguage_fresh w eq_refl)). by vm_compute.
Defined.

Lemma titles_lookup key :
  titles !! key =
    if decide (key = "en") then Some "Tom S. - Software Engineer"
    else if decide (key = "fr") then Some "Tom S. - Ingénieur Logiciel"
    else None.
Proof.
  unfold titles. repeat case_decide; subst.
  - by rewrite lookup_insert_eq.
  - rewrite lookup_insert_ne by done. by rewrite lookup_singleton_eq.
  - rewrite lookup_insert_ne by done. by rewrite lookup_singleton_ne.
Qed.

Lemma descriptions_lookup_other key :
  key ≠ "en" → key ≠ "fr" → descriptions !! key = None.
Proof.
  intros Hen Hfr. unfold descriptions.
  rewrite lookup_insert_ne by done. by rewrite lookup_singleton_ne.
Qed.

Lemma switchLanguage_title lang w :
  lang ≠ currentLanguage w →
  document_title (switchLanguage lang w)
  = toString (of_option (titles !! toString lang))
  ∧ metaDescription (switchLanguage lang w)
    = match metaDescription w with
      | Some _ => Some (toString (of_option (descriptions !! toString lang)))
      | None => None
      end.
Proof.
  intros Hne. unfold switchLanguage, strict_eq.
  rewrite bool_decide_eq_false_2 by done.
  cbn -[updateTranslations titles descriptions].
  match goal with
  | |- context [updateTranslations ?w0] =>
      pose proof (updateTranslations_fields w0)
        as (_ & _ & _ & _ & _ & _ & Hdt & Hmd & _)
  end.
  cbn zeta in Hdt, Hmd. rewrite Hdt, Hmd. done.
Qed.

(** X7.  A switch to [en] or [fr] sets the page title to the English or
    the French title; for any other plain code (lower-case letters, not
    [constructor]; [undefined] counts as one) the lookup in the two-entry table
    misses and the title, and the meta description if the page has one,
    become the literal text [undefined]. *)
Theorem switchLanguage_title_missing (lang : Val) (w : World) :
  lang ≠ currentLanguage w →
  plainCode lang = true →
  let w' := switchLanguage lang w in
  (lang = str "en" → document_title w' = "Tom S. - Software Engineer")
  ∧ (lang = str "fr" → document_title w' = "Tom S. - Ingénieur Logiciel")
  ∧ (toString lang ≠ "en" → toString lang ≠ "fr" →
     document_title w' = "undefined"
     ∧ (is_Some (metaDescription w) →
        metaDescription w' = Some "undefined")
     ∧ (metaDescription w = None → metaDescription w' = None)).
Proof.
  intros Hne _ w'. unfold w'.
  destruct (switchLanguage_title lang w Hne) as [Hdt Hmd].
  rewrite Hdt, Hmd, titles_lookup. split_and!.
  - by intros ->.
  - by intros ->.
  - intros Hen Hfr. rewrite !decide_False by done.
    rewrite descriptions_lookup_other by done.
    split_and!; [done| |by intros ->].
    by intros [d ->].
Qed.

Lemma switchLanguage_title_missing_witness :
  document_title (switchLanguage (str "de") loadedPage) = "undefined".
Proof.
  apply (switchLanguage_title_missing (str "de") loadedPage);
    [discriminate|reflexivity|discriminate|discriminate].
Defined.

(** ** Loading and rendering, on any page *)


(** X9.  Rendering replaces the container's content: the result does not
    depend on what the container held before, and rendering a second time
    changes nothing. *)
Theorem renderBlogPosts_replaces fmt (w : World) (previous : string) :
  renderBlogPosts fmt (renderBlogPosts fmt w) = renderBlogPosts fmt w
  ∧ (is_Some (blogContainer w) →
     renderBlogPosts fmt (set_blogContainer (Some previous) w)
     = renderBlogPosts fmt w).
Proof.
  rewrite !renderBlogPosts_writes.
  destruct w as [l bp nav ls nl dl dt md els bc co rq].
  split.
  - destruct bc; reflexivity.
  - intros [html Hc]. simpl in Hc. subst bc. reflexivity.
Qed.

Lemma renderBlogPosts_replaces_witness :
  renderBlogPosts isoDate
    (set_blogContainer (Some "<p>Loading</p>")
       (set_blogPosts tenPosts blankPage))
  = renderBlogPosts isoDate (set_blogPosts tenPosts blankPage).
Proof.
  apply (renderBlogPosts_replaces isoDate (set_blogPosts tenPosts blankPage)).
  by eexists.
Defined.

(** ** The observer over the life of the page *)

Module AnimationObserverLife.
Import AnimationObserver AnimationObserverFacts.

(** One step of [init] on the element it is applied to, and on the
    others. *)
Lemma init_step_styleOf (p : Page) x el :
  let p' :=
    observe x
      (set_style x (λ s, mkStyle (opacity s) (transform s)
                           "opacity 0.6s ease, transform 0.6s ease")
         (set_style x (λ s, mkStyle (opacity s) "translateY(20px)"
                              (transition s))
            (set_style x (λ s, mkStyle "0" (transform s) (transition s)) p)))
  in
  styleOf p' el = (if decide (x = el) then hiddenStyle else styleOf p el)
  ∧ (el ∈ observed p' ↔ x = el ∨ el ∈ observed p).
Proof.
  intros p'. unfold p'. split.
  - change (styleOf (observe ?t ?r) el) with (styleOf r el).
    rewrite !styleOf_set_style. by case_decide.
  - simpl. rewrite elem_of_union, elem_of_singleton. intuition congruence.
Qed.

(** After [init], a queried element has the hidden style and is watched;
    any other element is as it was. *)
Lemma init_styleOf els (p : Page) el :
  (el ∈ els →
   styleOf (init false els p) el = hiddenStyle
   ∧ el ∈ observed (init false els p))
  ∧ (el ∉ els →
     styleOf (init false els p) el = styleOf p el
     ∧ (el ∈ observed (init false els p) ↔ el ∈ observed p)).
Proof.
  unfold init. revert p.
  induction els as [|x els IH] using rev_ind; intros p.
  { split; [by intros ?%elem_of_nil|done]. }
  rewrite foldl_app. cbn [foldl].
  destruct (init_step_styleOf
              (foldl (λ p el,
                        observe el
                          (set_style el
                             (λ s, mkStyle (opacity s) (transform s)
                                     "opacity 0.6s ease, transform 0.6s ease")
                             (set_style el
                                (λ s, mkStyle (opacity s) "translateY(20px)"
                                        (transition s))
                                (set_style el
                                   (λ s, mkStyle "0" (transform s)
                                           (transition s)) p))))
                 p els) x el) as [Hs Ho].
  cbn zeta in Hs, Ho. rewrite Hs, Ho. clear Hs Ho.
  destruct (IH p) as [IHin IHout].
  rewrite elem_of_app, list_elem_of_singleton. split.
  - intros Hin. case_decide as Hx.
    + split; [done|by left].
    + destruct Hin as [Hin|Hin]; [|by subst].
      destruct (IHin Hin). split; [done|by right].
  - intros Hnot. rewrite decide_False by (intros ->; apply Hnot; by right).
    destruct IHout as [IHs IHo]; [tauto|].
    split; [done|]. rewrite IHo. intuition congruence.
Qed.

Lemma handleEntry_settled p entry el :
  settled p el → settled (handleEntry p entry) el.
Proof.
  unfold settled. rewrite handleEntry_styleOf, handleEntry_observed.
  destruct (isIntersecting entry); simpl.
  - case_bool_decide as Ht.
    + intros [[Hs _]|[Hs _]]; right; rewrite Hs;
        (split; [reflexivity|intros [_ Hn]; by apply Hn]).
    + intros [[Hs Ho]|[Hs Ho]]; [left|right]; (split; [done|]).
      * split; [done|]. by intros [_ ?].
      * by intros [? _].
  - intros [[Hs Ho]|[Hs Ho]]; [left|right]; (split; [done|]).
    + split; [done|]. by intros [? _].
    + by intros [? _].
Qed.

Lemma handleAll_settled batches p el :
  settled p el → settled (handleAll batches p) el.
Proof.
  unfold handleAll. revert p.
  induction batches as [|entries batches IH]; intros p Hp; [done|].
  simpl. apply IH. unfold handleIntersection. clear IH. revert p Hp.
  induction entries as [|entry entries IH]; intros p Hp; [done|].
  simpl. apply IH. by apply handleEntry_settled.
Qed.

(** An element without an intersecting entry in the batch is not
    touched. *)
Lemma handleIntersection_other entries p el :
  (∀ entry, entry ∈ entries → isIntersecting entry = true →
            target entry ≠ el) →
  styleOf (handleIntersection entries p) el = styleOf p el
  ∧ (el ∈ observed (handleIntersection entries p) ↔ el ∈ observed p).
Proof.
  unfold handleIntersection. revert p.
  induction entries as [|entry entries IH]; intros p Hnone; [done|].
  simpl.
  destruct (IH (handleEntry p entry)) as [Hs Ho].
  { intros e He. apply Hnone. by apply elem_of_cons; right. }
  rewrite Hs, Ho, handleEntry_styleOf, handleEntry_observed.
  assert (isIntersecting entry = true → target entry ≠ el) as Hentry.
  { apply Hnone. by apply elem_of_cons; left. }
  destruct (isIntersecting entry); simpl; [|tauto].
  rewrite bool_decide_eq_false_2 by tauto. intuition congruence.
Qed.

Lemma handleIntersection_shrinks entries p el :
  el ∈ observed (handleIntersection entries p) → el ∈ observed p.
Proof.
  unfold handleIntersection. revert p.
  induction entries as [|entry entries IH]; intros p; [done|].
  simpl. intros Hin%IH. apply handleEntry_observed in Hin. tauto.
Qed.

End AnimationObserverLife.

(** X10.  At any time after [init], each queried element is in one of
    two states: it has the hidden style and is watched, or it has the
    shown style (with the transition [init] declared) and is not watched.
    No sequence of callback batches produces anything else. *)
Theorem observer_settled (els : list nat) (p0 : AnimationObserver.Page)
  (el : nat) (batches : list (list AnimationObserver.Entry)) :
  el ∈ els →
  settled
    (AnimationObserver.handleAll batches (AnimationObserver.init false els p0))
    el.
Proof.
  intros Hel. apply AnimationObserverLife.handleAll_settled.
  left. by apply AnimationObserverLife.init_styleOf.
Qed.

Lemma observer_settled_witness :
  settled
    (AnimationObserver.handleAll
       [[AnimationObserver.mkEntry 2 false];
        [AnimationObserver.mkEntry 2 true; AnimationObserver.mkEntry 1 false]]
       (AnimationObserver.init false [1; 2; 3] (AnimationObserver.mkPage ∅ ∅)))
    2.
Proof.
  apply observer_settled.
  apply elem_of_cons. right. apply elem_of_cons. by left.
Defined.

(** X11.  The callback touches only the targets reported as
    intersecting: an element with no intersecting entry in the batch
    keeps its style and its watch.  And the callback never starts
    watching anything. *)
Theorem handleIntersection_frame (entries : list AnimationObserver.Entry)
  (p : AnimationObserver.Page) (el : nat) :
  let p' := AnimationObserver.handleIntersection entries p in
  ((∀ entry, entry ∈ entries →
             AnimationObserver.isIntersecting entry = true →
             AnimationObserver.target entry ≠ el) →
   AnimationObserver.styleOf p' el = AnimationObserver.styleOf p el
   ∧ (el ∈ AnimationObserver.observed p'
      ↔ el ∈ AnimationObserver.observed p))
  ∧ (el ∈ AnimationObserver.observed p' → el ∈ AnimationObserver.observed p).
Proof.
  intros p'. split.
  - apply AnimationObserverLife.handleIntersection_other.
  - apply AnimationObserverLife.handleIntersection_shrinks.
Qed.

Lemma handleIntersection_frame_witness :
  let p := AnimationObserver.init false [1; 2] (AnimationObserver.mkPage ∅ ∅) in
  let p' :=
    AnimationObserver.handleIntersection
      [AnimationObserver.mkEntry 1 true; AnimationObserver.mkEntry 2 false] p in
  AnimationObserver.styleOf p' 2 = AnimationObserver.styleOf p 2.
Proof.
  intros p p'.
  apply (handleIntersection_frame
           [AnimationObserver.mkEntry 1 true; AnimationObserver.mkEntry 2 false]
           p 2).
  intros entry Hin Hint.
  apply elem_of_cons in Hin as [->|Hin]; [discriminate|].
  apply elem_of_cons in Hin as [->|Hin]; [discriminate|].
  by apply elem_of_nil in Hin.
Defined.

(** X12.  With reduced motion requested [init] does nothing.  Otherwise
    it gives every queried element the hidden style and starts watching
    it, and leaves the style and the watch of every other element as they
    are. *)
Theorem init_effect (els : list nat) (p : AnimationObserver.Page)
  (el : nat) :
  AnimationObserver.init true els p = p
  ∧ (el ∈ els →
     AnimationObserver.styleOf (AnimationObserver.init false els p) el
     = hiddenStyle
     ∧ el ∈ AnimationObserver.observed (AnimationObserver.init false els p))
  ∧ (el ∉ els →
     AnimationObserver.styleOf (AnimationObserver.init false els p) el
     = AnimationObserver.styleOf p el
     ∧ (el ∈ AnimationObserver.observed (AnimationObserver.init false els p)
        ↔ el ∈ AnimationObserver.observed p)).
Proof.
  split; [reflexivity|]. apply AnimationObserverLife.init_styleOf.
Qed.

Lemma init_effect_witness :
  AnimationObserver.styleOf
    (AnimationObserver.init false [4; 7] (AnimationObserver.mkPage ∅ ∅)) 7
  = hiddenStyle.
Proof.
  apply (init_effect [4; 7] (AnimationObserver.mkPage ∅ ∅) 7).
  apply elem_of_cons. right. apply elem_of_cons. by left.
Defined.

(** ** The mobile navigation *)

Lemma toggleMobileNav_present v t classes :
  navToggle v = Some t → navMenu v = Some classes →
  toggleMobileNav v =
    (Normal,
     mkViewport (set_mobileNavOpen (negb (isOpen v)) (site v))
       (Some (Some (bool_toString (negb (isOpen v)))))
       (Some (if negb (isOpen v) then {[ "active" ]} ∪ classes
              else classes ∖ {[ "active" ]}))
       (if negb (isOpen v) then "hidden" else "")
       (header v) (anchors v) (scrolls v) (history v) (submitButton v)
       (timers v)).
Proof.
  intros Ht Hm. unfold toggleMobileNav. simpl. by rewrite Ht, Hm.
Qed.

Lemma closeMobileNav_present v t classes :
  navToggle v = Some t → navMenu v = Some classes → isOpen v = true →
  closeMobileNav v =
    (Normal,
     mkViewport (set_mobileNavOpen false (site v))
       (Some (Some "false")) (Some (classes ∖ {[ "active" ]})) ""
       (header v) (anchors v) (scrolls v) (history v) (submitButton v)
       (timers v)).
Proof.
  intros Ht Hm Hopen. unfold closeMobileNav. rewrite Hopen. simpl.
  by rewrite Ht, Hm.
Qed.

Lemma closeMobileNav_closed v :
  isOpen v = false → closeMobileNav v = (Normal, v).
Proof. intros Hc. unfold closeMobileNav. by rewrite Hc. Qed.

Lemma toggleMobileNav_inStep v :
  is_Some (navToggle v) → is_Some (navMenu v) →
  (toggleMobileNav v).1 = Normal
  ∧ inStep (toggleMobileNav v).2
  ∧ isOpen (toggleMobileNav v).2 = negb (isOpen v).
Proof.
  intros [t Ht] [classes Hm].
  rewrite (toggleMobileNav_present v t classes Ht Hm).
  unfold inStep, isOpen. simpl. split_and!; try done.
  eexists. split; [reflexivity|].
  destruct (mobileNavOpen (site v)); simpl.
  - rewrite elem_of_difference, elem_of_singleton.
    split; [tauto|discriminate].
  - rewrite elem_of_union, elem_of_singleton. split; [done|]. by left.
Qed.

Lemma closeMobileNav_inStep v :
  is_Some (navToggle v) → is_Some (navMenu v) → isOpen v = true →
  (closeMobileNav v).1 = Normal
  ∧ inStep (closeMobileNav v).2
  ∧ isOpen (closeMobileNav v).2 = false.
Proof.
  intros [t Ht] [classes Hm] Hopen.
  rewrite (closeMobileNav_present v t classes Ht Hm Hopen).
  unfold inStep, isOpen. simpl. split_and!; try done.
  eexists. split; [reflexivity|].
  rewrite elem_of_difference, elem_of_singleton.
  split; [tauto|discriminate].
Qed.

Lemma inStep_present v :
  inStep v → is_Some (navToggle v) ∧ is_Some (navMenu v).
Proof. intros (Ht & (classes & Hm & _) & _). rewrite Ht, Hm. by split. Qed.

Lemma wired_present v :
  wired v = true ↔ is_Some (navToggle v) ∧ is_Some (navMenu v).
Proof.
  unfold wired. rewrite andb_true_iff, !bool_decide_eq_true. done.
Qed.

(** The invariant of the listeners: the menu is closed, or the page is in
    step with the open menu. *)
Lemma dispatch_keeps (e : NavEvent) (v : Viewport) :
  isOpen v = false ∨ inStep v →
  (dispatch e v).1 = Normal
  ∧ (isOpen (dispatch e v).2 = false ∨ inStep (dispatch e v).2)
  ∧ (inStep v → inStep (dispatch e v).2).
Proof.
  intros Hinv.
  assert (isOpen v = true → is_Some (navToggle v) ∧ is_Some (navMenu v))
    as Hpresent.
  { intros Hopen. destruct Hinv as [Hc|Hs]; [congruence|].
    by apply inStep_present. }
  assert ((closeMobileNav v).1 = Normal
          ∧ isOpen (closeMobileNav v).2 = false
          ∧ (inStep v → inStep (closeMobileNav v).2)) as (Hc1 & Hc2 & Hc3).
  { destruct (isOpen v) eqn:Hopen.
    - destruct (Hpresent eq_refl) as [Ht Hm].
      destruct (closeMobileNav_inStep v Ht Hm Hopen) as (? & ? & ?).
      by split_and!.
    - rewrite closeMobileNav_closed by done. by split_and!. }
  assert (∀ a b, (documentClick a b v).1 = Normal
                 ∧ (isOpen (documentClick a b v).2 = false
                    ∨ inStep (documentClick a b v).2)
                 ∧ (inStep v → inStep (documentClick a b v).2)) as Hdoc.
  { intros a b. unfold documentClick.
    destruct (isOpen v && negb a && negb b); simpl; [|by split_and!].
    split_and!; [done|by left|done]. }
  destruct e as [|a b|a b|key]; simpl.
  - destruct (wired v) eqn:Hw; [|apply Hdoc].
    apply wired_present in Hw as [Ht Hm].
    destruct (toggleMobileNav_inStep v Ht Hm) as (Hn & Hs & Ho).
    unfold thenListener. destruct (toggleMobileNav v) as [c v'].
    simpl in *. subst c. unfold documentClick.
    rewrite andb_false_r. simpl. split_and!; [done|by right|done].
  - destruct (wired v) eqn:Hw; [|apply Hdoc].
    unfold thenListener. destruct (closeMobileNav v) as [c v'].
    simpl in *. subst c. unfold documentClick. rewrite Hc2. simpl.
    split_and!; [done|by left|done].
  - apply Hdoc.
  - destruct (bool_decide (key = "Escape") && isOpen v); simpl;
      [|by split_and!].
    split_and!; [done|by left|done].
Qed.

Lemma dispatchAll_keeps (events : list NavEvent) (v : Viewport) :
  isOpen v = false ∨ inStep v →
  (dispatchAll events v).1 = Normal
  ∧ (isOpen (dispatchAll events v).2 = false ∨ inStep (dispatchAll events v).2)
  ∧ (inStep v → inStep (dispatchAll events v).2).
Proof.
  revert v. induction events as [|e events IH]; intros v Hinv.
  { simpl. by split_and!. }
  simpl. destruct (dispatch_keeps e v Hinv) as (Hn & Hk & Hs).
  destruct (dispatch e v) as [c v']. simpl in *. subst c.
  destruct (IH v' Hk) as (Hn' & Hk' & Hs'). split_and!; [done|done|].
  intros Hstep. apply Hs', Hs, Hstep.
Qed.

(** X13.  Starting with the menu closed, no sequence of clicks and key
    presses makes a navigation listener throw, also on a page that lacks
    the toggle or the menu: the menu can only be open if both exist.  And
    whenever the menu is open, toggle, menu and body are in step with
    it. *)
Theorem navigation_never_throws (events : list NavEvent) (v : Viewport) :
  isOpen v = false →
  (dispatchAll events v).1 = Normal
  ∧ (isOpen (dispatchAll events v).2 = true →
     inStep (dispatchAll events v).2).
Proof.
  intros Hclosed.
  destruct (dispatchAll_keeps events v (or_introl Hclosed)) as (Hn & Hk & _).
  split; [done|]. intros Hopen. destruct Hk as [Hc|Hs]; [congruence|done].
Qed.

(** X14.  Once toggle, menu and body are in step with the flag, every
    sequence of clicks and key presses keeps them in step: the flag is
    set exactly when [aria-expanded] is [true], the menu has the class
    [active] and the body's overflow is [hidden]. *)
Theorem navigation_stays_in_step (events : list NavEvent) (v : Viewport) :
  inStep v → inStep (dispatchAll events v).2.
Proof.
  intros Hstep.
  by apply (dispatchAll_keeps events v (or_intror Hstep)).
Qed.

Lemma navigation_never_throws_witness :
  (dispatchAll [ClickToggle; ClickNavLink true false; KeyDown "Escape";
                ClickElsewhere false false] barePage).1 = Normal.
Proof.
  apply (navigation_never_throws
           [ClickToggle; ClickNavLink true false; KeyDown "Escape";
            ClickElsewhere false false] barePage).
  reflexivity.
Defined.

Lemma phonePage_inStep : inStep phonePage.
Proof.
  unfold inStep. split_and!; [reflexivity| |reflexivity].
  eexists. split; [reflexivity|]. split; [|discriminate].
  intros Hin. apply elem_of_singleton in Hin. discriminate.
Defined.

Lemma navigation_stays_in_step_witness :
  inStep (dispatchAll [ClickToggle; ClickElsewhere true false;
                       ClickElsewhere false false] phonePage).2.
Proof.
  apply (navigation_stays_in_step
           [ClickToggle; ClickElsewhere true false;
            ClickElsewhere false false] phonePage).
  exact phonePage_inStep.
Defined.

Lemma active_added_removed (classes : gset string) :
  "active" ∉ classes → ({[ "active" ]} ∪ classes) ∖ {[ "active" ]} = classes.
Proof.
  intros Hnot. apply set_eq. intros c.
  rewrite elem_of_difference, elem_of_union, elem_of_singleton.
  split; [tauto|]. intros Hc. split; [by right|]. by intros ->.
Qed.

Lemma active_removed_added (classes : gset string) :
  "active" ∈ classes → {[ "active" ]} ∪ classes ∖ {[ "active" ]} = classes.
Proof.
  intros Hin. apply set_eq. intros c.
  rewrite elem_of_union, elem_of_difference, elem_of_singleton.
  split; [by intros [->|[? _]]|]. intros Hc.
  destruct (decide (c = "active")); [by left|by right].
Qed.

(** X15.  Toggling twice gives back the flag; if the menu was closed the
    body can scroll again; and on a page that was in step the two toggles
    restore the state exactly. *)
Theorem toggleMobileNav_twice (v : Viewport) :
  is_Some (navToggle v) → is_Some (navMenu v) →
  let once := toggleMobileNav v in
  let twice := toggleMobileNav once.2 in
  once.1 = Normal ∧ twice.1 = Normal
  ∧ isOpen once.2 = negb (isOpen v)
  ∧ isOpen twice.2 = isOpen v
  ∧ (isOpen v = false → body_overflow twice.2 = "")
  ∧ (inStep v → twice.2 = v).
Proof.
  intros [t Ht] [classes Hm] once twice. unfold twice, once.
  rewrite (toggleMobileNav_present v t classes Ht Hm). cbn [fst snd].
  erewrite toggleMobileNav_present by reflexivity. cbn [fst snd].
  unfold isOpen. simpl. rewrite negb_involutive.
  split_and!; try done.
  - by intros ->.
  - intros (Ht' & (classes' & Hm' & Hactive) & Hov).
    clear once twice.
    unfold isOpen in *. rewrite Hm in Hm'. injection Hm' as <-.
    rewrite Ht in Ht'. injection Ht' as ->.
    destruct v as [w nt nm bo h an sc hi sb ti]. simpl in *. subst.
    destruct w as [l bp nav ls nl dl dt md els bc co rq]. simpl in *.
    destruct nav; simpl.
    + rewrite active_removed_added by tauto. reflexivity.
    + rewrite active_added_removed; [reflexivity|].
      intros Hin. apply Hactive in Hin. discriminate.
Qed.

Lemma toggleMobileNav_twice_witness :
  (toggleMobileNav (toggleMobileNav phonePage).2).2 = phonePage.
Proof.
  apply (toggleMobileNav_twice phonePage); [by eexists|by eexists|].
  exact phonePage_inStep.
Defined.

(** X16.  [closeMobileNav] always leaves the flag cleared, is a no-op on
    a closed menu, and a second call right after the first never does
    anything, whatever the page lacks. *)
Theorem closeMobileNav_idempotent (v : Viewport) :
  isOpen (closeMobileNav v).2 = false
  ∧ closeMobileNav (closeMobileNav v).2 = (Normal, (closeMobileNav v).2)
  ∧ (isOpen v = false → closeMobileNav v = (Normal, v)).
Proof.
  assert (isOpen (closeMobileNav v).2 = false) as Hclosed.
  { unfold closeMobileNav. destruct (isOpen v) eqn:Hopen; [|done].
    simpl. destruct (navToggle v); [|done].
    simpl. by destruct (navMenu v). }
  split_and!; [done| |apply closeMobileNav_closed].
  by apply closeMobileNav_closed.
Qed.



(** ** Smooth scrolling *)

(** A [href] of the form [#id] passes the test of the handler. *)
Lemma hash_link id :
  truthy (Some ("#" +:+ id))
  && String.prefix "#" (default "" (Some ("#" +:+ id))) = true.
Proof. simpl. by destruct id. Qed.

Lemma closeMobileNav_frame v :
  scrolls (closeMobileNav v).2 = scrolls v
  ∧ history (closeMobileNav v).2 = history v
  ∧ isOpen (closeMobileNav v).2 = false.
Proof.
  unfold closeMobileNav. destruct (isOpen v) eqn:Hopen; [|done].
  simpl. destruct (navToggle v); [|done].
  simpl. by destruct (navMenu v).
Qed.

(** X18.  A click on a link to [#id], where the page has an element with
    that id and a header, and the navigation is closed or in step:
    the default jump is prevented, one smooth scroll is requested to the
    element's offset minus the header height minus 20, the menu is
    closed, and the link's [href] is pushed on the history.  With the
    menu closed beforehand nothing else changes. *)
Theorem handleSmoothScroll_scrolls (v : Viewport) (id : string)
  (offsetTop headerHeight : Z) :
  id ≠ "" →
  anchors v !! id = Some offsetTop →
  header v = Some headerHeight →
  isOpen v = false ∨ inStep v →
  let r := handleSmoothScroll (Some ("#" +:+ id)) v in
  let request :=
    mkScrollRequest (offsetTop - headerHeight - 20)%Z "smooth" in
  completion r = Normal
  ∧ defaultPrevented r = true
  ∧ scrolls (after r) = scrolls v ++ [request]
  ∧ history (after r) = history v ++ ["#" +:+ id]
  ∧ isOpen (after r) = false
  ∧ (isOpen v = false →
     after r = set_history (history v ++ ["#" +:+ id])
                 (set_scrolls (scrolls v ++ [request]) v)).
Proof.
  intros Hid Hanchor Hheader Hnav r request. unfold r, handleSmoothScroll.
  rewrite (hash_link id). cbv iota.
  change (substring1 (default "" (Some ("#" +:+ id)))) with id.
  unfold getElementById. rewrite bool_decide_eq_false_2 by done.
  rewrite Hanchor, Hheader. cbv zeta. fold request.
  set (v1 := set_scrolls (scrolls v ++ [request]) v).
  assert ((closeMobileNav v1).1 = Normal) as Hnormal.
  { destruct (isOpen v) eqn:Hopen.
    - destruct Hnav as [?|Hstep]; [done|].
      destruct (inStep_present v Hstep) as [Ht Hm].
      by apply (closeMobileNav_inStep v1).
    - by rewrite closeMobileNav_closed. }
  destruct (closeMobileNav_frame v1) as (Hsc & Hhi & Hop).
  destruct (closeMobileNav v1) as [c v2] eqn:Hclose. simpl in *. subst c.
  split_and!; try done.
  - by rewrite Hhi.
  - intros Hclosed. rewrite closeMobileNav_closed in Hclose by done.
    by injection Hclose as <-.
Qed.

Lemma handleSmoothScroll_scrolls_witness :
  scrolls (after (handleSmoothScroll (Some "#contact") phonePage))
  = [mkScrollRequest 2316 "smooth"].
Proof.
  apply (handleSmoothScroll_scrolls phonePage "contact" 2400 64);
    [discriminate|by vm_compute|reflexivity|by left].
Defined.

(** X19.  When [handleSmoothScroll] does not scroll.  A target without
    [href], or whose [href] is empty or does not start with [#], is
    ignored: the default action is not prevented.  A link to [#] alone or
    to an id no element has gets its default prevented and nothing else.
    With the target present but no [.header] on the page the handler
    throws after preventing the default, before any scroll or history
    entry. *)
Theorem handleSmoothScroll_ignores (v : Viewport) (href id : string)
  (offsetTop : Z) :
  handleSmoothScroll None v = mkHandled Normal false v
  ∧ (String.prefix "#" href = false →
     handleSmoothScroll (Some href) v = mkHandled Normal false v)
  ∧ handleSmoothScroll (Some "#") v = mkHandled Normal true v
  ∧ (anchors v !! id = None →
     handleSmoothScroll (Some ("#" +:+ id)) v = mkHandled Normal true v)
  ∧ (id ≠ "" → anchors v !! id = Some offsetTop → header v = None →
     handleSmoothScroll (Some ("#" +:+ id)) v = mkHandled TypeError true v).
Proof.
  split_and!.
  - reflexivity.
  - intros Hprefix. unfold handleSmoothScroll.
    change (default "" (Some href)) with href.
    by rewrite Hprefix, andb_false_r.
  - reflexivity.
  - intros Hnone. unfold handleSmoothScroll.
    rewrite (hash_link id). cbv iota.
    change (substring1 (default "" (Some ("#" +:+ id)))) with id.
    unfold getElementById. case_bool_decide; [done|]. by rewrite Hnone.
  - intros Hid Hanchor Hheader. unfold handleSmoothScroll.
    rewrite (hash_link id). cbv iota.
    change (substring1 (default "" (Some ("#" +:+ id)))) with id.
    unfold getElementById. rewrite bool_decide_eq_false_2 by done.
    by rewrite Hanchor, Hheader.
Qed.

Lemma handleSmoothScroll_ignores_witness :
  handleSmoothScroll (Some "#team") phonePage
  = mkHandled Normal true phonePage.
Proof.
  apply (handleSmoothScroll_ignores phonePage "" "team" 0). by vm_compute.
Defined.

(** ** The contact form *)

Lemma loading_added_removed (classes : gset string) :
  "loading" ∉ classes →
  ({[ "loading" ]} ∪ classes) ∖ {[ "loading" ]} = classes.
Proof.
  intros Hnot. apply set_eq. intros c.
  rewrite elem_of_difference, elem_of_union, elem_of_singleton.
  split; [tauto|]. intros Hc. split; [by right|]. by intros ->.
Qed.

(** X20.  A submission puts the button in its loading state (class
    [loading], disabled, label [Envoi...] when the active language is
    [fr] and [Sending...] for any other value, [undefined] included) and
    schedules one callback for 2000 ms.  When that callback fires and no
    other was pending, the button is enabled, is without the class
    [loading], and its text content is the text it had at the submission
    (as text: what the label contained besides text is not put back).
    Without a submit button the handler throws and changes nothing. *)
Theorem handleFormSubmission_cycle (v : Viewport) (button : SubmitButton) :
  (submitButton v = None → handleFormSubmission v = (TypeError, v))
  ∧ (submitButton v = Some button →
     let submitted := handleFormSubmission v in
     submitted.1 = Normal
     ∧ submitButton submitted.2 =
         Some (mkSubmitButton ({[ "loading" ]} ∪ button_classList button)
                 true
                 (if bool_decide (currentLanguage (site v) = str "fr")
                  then "Envoi..." else "Sending..."))
     ∧ timers submitted.2 = timers v ++ [(2000, button_textContent button)]
     ∧ (timers v = [] →
        let restored := fireTimer submitted.2 in
        timers restored = []
        ∧ ∃ after,
            submitButton restored = Some after
            ∧ button_disabled after = false
            ∧ ("loading" ∉ button_classList after)
            ∧ (∀ class, class ≠ "loading" →
                 (class ∈ button_classList after
                  ↔ class ∈ button_classList button))
            ∧ button_textContent after = button_textContent button)).
Proof.
  split.
  - intros Hnone. unfold handleFormSubmission. by rewrite Hnone.
  - intros Hbutton submitted. unfold submitted, handleFormSubmission.
    rewrite Hbutton. cbn [fst snd]. split_and!; try done.
    intros Htimers. cbv zeta.
    destruct v as [w nt nm bo h an sc hi sb ti].
    destruct button as [classes disabled text].
    simpl in *. subst. unfold fireTimer. simpl.
    split; [done|]. eexists. split; [reflexivity|]. simpl.
    split; [done|]. split.
    { rewrite elem_of_difference, elem_of_singleton. tauto. }
    split; [|done]. intros class Hclass.
    rewrite elem_of_difference, elem_of_union, !elem_of_singleton. tauto.
Qed.

Lemma handleFormSubmission_cycle_witness :
  ∃ after,
    submitButton (fireTimer (handleFormSubmission phonePage).2) = Some after
    ∧ button_disabled after = false
    ∧ button_textContent after = "Send Message".
Proof.
  destruct (handleFormSubmission_cycle phonePage
              (mkSubmitButton {[ "btn" ]} false "Send Message"))
    as (_ & Hcycle).
  destruct (Hcycle eq_refl) as (_ & _ & _ & Hfire).
  destruct (Hfire eq_refl) as (_ & after & Hafter & Henabled & _ & _ & Htext).
  exists after. by split_and!.
Defined.

(** X21.  A second submission while the first callback is pending
    captures the loading label as the text to restore: once both
    callbacks have fired the button is enabled and not loading, but it
    shows the loading label instead of its own. *)
Theorem handleFormSubmission_twice (v : Viewport) (button : SubmitButton) :
  submitButton v = Some button →
  timers v = [] →
  let loadingText :=
    if bool_decide (currentLanguage (site v) = str "fr")
    then "Envoi..." else "Sending..." in
  let final :=
    fireTimer
      (fireTimer (handleFormSubmission (handleFormSubmission v).2).2) in
  submitButton final =
    Some (mkSubmitButton (button_classList button ∖ {[ "loading" ]})
            false loadingText)
  ∧ timers final = [].
Proof.
  intros Hbutton Htimers loadingText final.
  unfold final, handleFormSubmission. rewrite Hbutton. cbn [fst snd].
  destruct v as [w nt nm bo h an sc hi sb ti].
  destruct button as [classes disabled text].
  simpl in *. subst. unfold fireTimer. simpl. split; [|done].
  do 2 f_equal. apply set_eq. intros c.
  rewrite !elem_of_difference, !elem_of_union, !elem_of_singleton. tauto.
Qed.

Lemma handleFormSubmission_twice_witness :
  button_textContent
    <$> submitButton
          (fireTimer
             (fireTimer
                (handleFormSubmission (handleFormSubmission phonePage).2).2))
  = Some "Sending...".
Proof.
  destruct (handleFormSubmission_twice phonePage
              (mkSubmitButton {[ "btn" ]} false "Send Message")
              eq_refl eq_refl) as [Hfinal _].
  rewrite Hfinal. reflexivity.
Defined.

(** ** The copyright year *)


Lemma stampYear_lookup currentYear el key :
  key = "en" ∨ key = "fr" →
  dataset (stampYear currentYear el) !! key =
    (λ s, if truthy (replace_first "2024" (pretty currentYear) s)
          then replace_first "2024" (pretty currentYear) s else s)
      <$> dataset el !! key.
Proof.
  intros Hkey. unfold stampYear, set_dataset.
  destruct (dataset el !! "en") as [e|] eqn:Hen;
    destruct (dataset el !! "fr") as [f|] eqn:Hfr; cbn -[replace_first truthy];
    repeat
      (match goal with
       | |- context [truthy (Some ?s)] =>
           change (truthy (Some s)) with (truthy s);
           destruct (truthy s) eqn:?
       | |- context [truthy None] =>
           change (truthy (@None string)) with false
       end; cbn -[replace_first truthy]);
    destruct Hkey as [-> | ->];
    rewrite ?lookup_insert_eq, ?lookup_insert_ne by done;
    rewrite ?lookup_insert_eq, ?lookup_insert_ne by done;
    rewrite ?Hen, ?Hfr; cbn -[replace_first truthy];
    repeat match goal with H : truthy _ = _ |- _ => rewrite H end;
    reflexivity.
Qed.


Lemma stampYear_rest currentYear el :
  classList (stampYear currentYear el) = classList el
  ∧ textContent (stampYear currentYear el) = textContent el
  ∧ placeholder (stampYear currentYear el) = placeholder el.
Proof.
  unfold stampYear, set_dataset.
  repeat (case_match; cbn -[replace_first truthy]); done.
Qed.

Lemma updateCopyrightYear_elements currentYear w :
  elements (updateCopyrightYear currentYear w) =
    map (λ el,
           placeholderPass (toString (currentLanguage w))
             (textPass (toString (currentLanguage w))
                (if default false (occurs "© 2024" <$> dataset el !! "en")
                    || default false (occurs "© 2024" <$> dataset el !! "fr")
                 then stampYear currentYear el else el)))
      (elements w).
Proof.
  unfold updateCopyrightYear. rewrite updateTranslations_elements.
  unfold forEach_matching. cbn [elements set_elements currentLanguage].
  by rewrite map_map.
Qed.

(** Apart from the elements, [updateCopyrightYear] changes what
    [updateTranslations] changes. *)
Lemma updateCopyrightYear_fields currentYear w :
  let w' := updateCopyrightYear currentYear w in
  currentLanguage w' = currentLanguage w
  ∧ blogPosts w' = blogPosts w
  ∧ mobileNavOpen w' = mobileNavOpen w
  ∧ localStorage w' = localStorage w
  ∧ navigator_language w' = navigator_language w
  ∧ documentElement_lang w' = documentElement_lang w
  ∧ document_title w'
    = toString (of_option (titles !! toString (currentLanguage w)))
  ∧ blogContainer w' = blogContainer w
  ∧ console w' = console w
  ∧ requests w' = requests w.
Proof.
  intros w'. unfold w', updateCopyrightYear.
  match goal with
  | |- context [updateTranslations ?w0] =>
      pose proof (updateTranslations_fields w0)
        as (H1 & H2 & H3 & H4 & H5 & H6 & H7 & _ & H9 & H10 & H11)
  end.
  cbn zeta in *. by split_and!.
Qed.

Lemma truthy_append (a s : string) :
  s ≠ "" → truthy (a +:+ s) = true.
Proof. intros Hs. destruct a; [by destruct s|done]. Qed.

(** X22.  A text [a © 2024 b] in [data-en] or [data-fr], whose first
    [2024] is the one after the sign, is rewritten with the current year,
    and when the attribute is the one of the active language the element
    shows the new text at once. *)
Theorem updateCopyrightYear_stamps (currentYear : N) (w : World) (i : nat)
  (el : Element) (key a b : string) :
  key = "en" ∨ key = "fr" →
  elements w !! i = Some el →
  dataset el !! key = Some (a +:+ "© 2024" +:+ b) →
  occurs "2024" (a +:+ "© 202") = false →
  let stamped := a +:+ "© " +:+ pretty currentYear +:+ b in
  ∃ el', elements (updateCopyrightYear currentYear w) !! i = Some el'
    ∧ dataset el' !! key = Some stamped
    ∧ (currentLanguage w = str key → textContent el' = stamped).
Proof.
  intros Hkey Hel Hdata Hfirst stamped.
  assert (replace_first "2024" (pretty currentYear) (a +:+ "© 2024" +:+ b)
          = stamped) as Hreplace.
  { change (a +:+ "© 2024" +:+ b)
      with (a +:+ "© " +:+ ("202" +:+ "4") +:+ b).
    rewrite <- (StringFacts.append_assoc a "© " _).
    change "2024" with ("202" +:+ "4").
    rewrite StringFacts.replace_first_at.
    - unfold stamped. by rewrite StringFacts.append_assoc.
    - simpl. lia.
    - rewrite StringFacts.append_assoc. exact Hfirst. }
  assert (truthy stamped = true) as Htruthy.
  { unfold stamped. by apply truthy_append. }
  assert (default false (occurs "© 2024" <$> dataset el !! "en")
          || default false (occurs "© 2024" <$> dataset el !! "fr") = true)
    as Hsel.
  { apply orb_true_iff.
    destruct Hkey as [-> | ->]; [left|right]; rewrite Hdata; simpl;
      apply StringFacts.occurs_append. }
  rewrite updateCopyrightYear_elements, list_lookup_fmap, Hel. simpl.
  rewrite Hsel. eexists. split; [reflexivity|].
  assert (dataset (stampYear currentYear el) !! key = Some stamped) as Hnew.
  { rewrite stampYear_lookup, Hdata by done.
    cbn [fmap option_fmap option_map]. cbv beta.
    by rewrite Hreplace, Htruthy. }
  rewrite placeholderPass_fields, textPass_fields.
  cbn [dataset textContent]. split; [done|].
  intros Hlang. rewrite Hlang. cbn [toString]. rewrite Hnew.
  change (truthy (Some stamped)) with (truthy stamped). rewrite Htruthy.
  rewrite (proj2 (orb_true_iff _ _)); [done|].
  destruct Hkey as [-> | ->]; [left|right];
    apply bool_decide_eq_true_2; by rewrite Hnew.
Qed.

Lemma updateCopyrightYear_stamps_witness :
  ∃ el', elements (updateCopyrightYear 2026 footerPage) !! 1 = Some el'
         ∧ textContent el' = "© 2026 Tom S. All rights reserved.".
Proof.
  destruct (updateCopyrightYear_stamps 2026 footerPage 1 footerLine "en"
              "" " Tom S. All rights reserved.")
    as (el' & Hel' & _ & Htext);
    [by left|reflexivity|by vm_compute|by vm_compute|].
  exists el'. split; [exact Hel'|]. apply Htext. reflexivity.
Defined.



(** ** The page load as a whole *)



(** The instance after the constructor, field by field. *)
Lemma newPortfolioSite_fields currentYear page :
  let resolved :=
    initialLang (localStorage page !! "preferredLanguage")
      (navigator_language page) in
  let w := newPortfolioSite currentYear page in
  currentLanguage w = str resolved
  ∧ requests w = requests page ++ ["blog/posts.json"]
  ∧ blogPosts w = []
  ∧ blogContainer w = blogContainer page
  ∧ console w = console page
  ∧ document_title w = toString (of_option (titles !! resolved))
  ∧ (resolved = "en" →
     localStorage w = localStorage page
     ∧ documentElement_lang w = documentElement_lang page)
  ∧ (resolved = "fr" →
     localStorage w !! "preferredLanguage" = Some "fr"
     ∧ documentElement_lang w = "fr").
Proof.
  intros resolved w. unfold w, newPortfolioSite, init.
  set (w1 := set_requests _ (constructed page)).
  pose proof (updateCopyrightYear_fields currentYear w1)
    as (Hl & Hbp & _ & Hls & Hnl & Hdl & Hdt & Hbc & Hco & Hrq).
  cbn zeta in *.
  set (w2 := updateCopyrightYear currentYear w1) in *.
  assert (initialLang (localStorage w2 !! "preferredLanguage")
            (navigator_language w2) = resolved) as Hres.
  { by rewrite Hls, Hnl. }
  unfold handleInitialLanguage. rewrite Hres.
  destruct (initialLang_range (localStorage page !! "preferredLanguage")
              (navigator_language page)) as [Hcase|Hcase];
    fold resolved in Hcase; rewrite Hcase.
  - assert (switchLanguage (str "en") w2 = w2) as ->.
    { unfold switchLanguage, strict_eq.
      by rewrite bool_decide_eq_true_2. }
    split_and!; first [done | by intros [=]].
  - assert (str "fr" ≠ currentLanguage w2) as Hne by (by rewrite Hl).
    destruct (switchLanguage_switches (str "fr") w2 Hne) as (Hl' & Hst & Hdl').
    destruct (switchLanguage_untouched (str "fr") w2)
      as (Hbc' & Hbp' & Hco' & Hrq' & _).
    destruct (switchLanguage_title (str "fr") w2 Hne) as [Hdt' _].
    cbn zeta in *.
    split_and!;
      first [ by rewrite Hrq', Hrq | by rewrite Hbp', Hbp
            | by rewrite Hbc', Hbc | by rewrite Hco', Hco
            | by intros [=] | congruence | done ].
Qed.

(** X24.  After [new PortfolioSite()] the one request for the posts is
    out, the active language is the resolved initial language, and the
    title is the one of that language.  When that language is [en]
    nothing has been written to the storage and the document language
    attribute is as the markup has it; when it is [fr] both carry
    [fr]. *)
Theorem newPortfolioSite_state (currentYear : N) (page : World) :
  let resolved :=
    initialLang (localStorage page !! "preferredLanguage")
      (navigator_language page) in
  let w := newPortfolioSite currentYear page in
  currentLanguage w = str resolved
  ∧ requests w = requests page ++ ["blog/posts.json"]
  ∧ (resolved = "en" →
     document_title w = "Tom S. - Software Engineer"
     ∧ localStorage w = localStorage page
     ∧ documentElement_lang w = documentElement_lang page)
  ∧ (resolved = "fr" →
     document_title w = "Tom S. - Ingénieur Logiciel"
     ∧ localStorage w !! "preferredLanguage" = Some "fr"
     ∧ documentElement_lang w = "fr").
Proof.
  intros resolved w.
  destruct (newPortfolioSite_fields currentYear page)
    as (Hl & Hrq & _ & _ & _ & Hdt & Hen & Hfr).
  cbn zeta in *. fold resolved in Hl, Hdt, Hen, Hfr. fold w in Hl, Hrq, Hdt, Hen, Hfr.
  split_and!; try done.
  - intros Hres. split; [|by apply Hen]. by rewrite Hdt, Hres.
  - intros Hres. split; [|by apply Hfr]. by rewrite Hdt, Hres.
Qed.

Lemma newPortfolioSite_state_witness :
  localStorage (newPortfolioSite 2026 footerPage) !! "preferredLanguage"
  = Some "fr".
Proof.
  destruct (newPortfolioSite_state 2026 footerPage) as (_ & _ & _ & Hfr).
  apply Hfr. by vm_compute.
Defined.



(** ** Debouncing *)

Module DebounceFacts.
Section DebounceFacts.
Import Debounce.

Context {Args : Type}.

Lemma clearTimeout_invoked id (s : State Args) :
  invoked Args (clearTimeout Args id s) = invoked Args s.
Proof. by destruct id. Qed.

Lemma step_inv (s : State Args) (made : list Args) (e : Event Args) :
  consistent Args s made → consistent Args (step Args s e) (made ++ calls Args [e]).
Proof.
  intros [Hsub Hpend]. destruct e as [args|id]; simpl.
  - split.
    + unfold executedFunction. cbn [invoked calls omap].
      rewrite clearTimeout_invoked. by apply sublist_inserts_r.
    + intros id a. unfold executedFunction, clearTimeout. simpl.
      destruct (timeout Args s) as [t|] eqn:Ht; simpl.
      * destruct (decide (nextId Args s = id)) as [<-|Hne].
        { rewrite lookup_insert_eq. intros [= <-]. split; [done|].
          by exists made. }
        rewrite lookup_insert_ne by done. intros Hlook.
        apply lookup_delete_Some in Hlook as [Hneq Hlook].
        destruct (Hpend id a Hlook) as [Hid _]. congruence.
      * destruct (decide (nextId Args s = id)) as [<-|Hne].
        { rewrite lookup_insert_eq. intros [= <-]. split; [done|].
          by exists made. }
        rewrite lookup_insert_ne by done. intros Hlook.
        destruct (Hpend id a Hlook) as [Hid _]. congruence.
  - rewrite app_nil_r. unfold fire.
    destruct (pending Args s !! id) as [args|] eqn:Hlook; [|by split].
    destruct (Hpend id args Hlook) as (Ht & earlier & -> & Hearlier).
    rewrite Ht. simpl. split.
    + by apply sublist_app.
    + intros id' a Hlook'. cbn [pending] in Hlook'.
      apply lookup_delete_Some in Hlook' as [_ Hlook'].
      apply lookup_delete_Some in Hlook' as [Hneq Hlook'].
      destruct (Hpend id' a Hlook') as [Hid _]. congruence.
Qed.

Lemma run_inv (events : list (Event Args)) (s : State Args)
  (made : list Args) :
  consistent Args s made → consistent Args (run Args events s) (made ++ calls Args events).
Proof.
  revert s made. induction events as [|e events IH]; intros s made Hinv.
  { by rewrite app_nil_r. }
  change (run Args (e :: events) s) with (run Args events (step Args s e)).
  change (e :: events) with ([e] ++ events).
  unfold calls. rewrite omap_app. fold (calls Args [e]) (calls Args events).
  rewrite app_assoc. apply IH. by apply step_inv.
Qed.

Lemma run_safe (events : list (Event Args)) :
  let s := run Args events (initial Args) in
  invoked Args s `sublist_of` calls Args events
  ∧ (∀ id a, pending Args s !! id = Some a →
             timeout Args s = Some id ∧ last (calls Args events) = Some a)
  ∧ (∀ id1 id2, is_Some (pending Args s !! id1) →
                is_Some (pending Args s !! id2) → id1 = id2).
Proof.
  intros s.
  assert (consistent Args (initial Args) []) as Hinit.
  { split; [done|]. intros id a Hlook. cbn [initial pending] in Hlook.
    by rewrite lookup_empty in Hlook. }
  destruct (run_inv events (initial Args) [] Hinit) as [Hsub Hpend].
  rewrite app_nil_l in *. fold s in Hsub, Hpend. split_and!.
  - done.
  - intros id a Hlook.
    destruct (Hpend id a Hlook) as (Ht & earlier & -> & _).
    split; [done|]. by rewrite last_snoc.
  - intros id1 id2 [a1 H1] [a2 H2].
    destruct (Hpend id1 a1 H1) as [Ht1 _].
    destruct (Hpend id2 a2 H2) as [Ht2 _]. congruence.
Qed.

Lemma calls_invoked (before : list Args) (s : State Args) :
  invoked Args (foldl (step Args) s (map (Call Args) before))
  = invoked Args s.
Proof.
  revert s. induction before as [|b before IH]; intros s; [done|].
  cbn [map foldl]. rewrite IH. cbn [step executedFunction invoked].
  apply clearTimeout_invoked.
Qed.

(** Calls alone never reach [func]; the last of them is the one that is
    pending. *)
Lemma run_calls (before : list Args) (a : Args) :
  let s := run Args (map (Call Args) (before ++ [a])) (initial Args) in
  invoked Args s = []
  ∧ ∃ id, timeout Args s = Some id ∧ pending Args s !! id = Some a.
Proof.
  intros s. unfold s, run. rewrite map_app, foldl_app.
  split.
  - cbn [map foldl step executedFunction invoked].
    rewrite clearTimeout_invoked. apply calls_invoked.
  - eexists. split; [reflexivity|]. apply lookup_insert_eq.
Qed.

End DebounceFacts.
End DebounceFacts.

(** X26.  However calls of a debounced function and timer callbacks
    interleave: [func] is only ever called with arguments of calls that
    were made, in their order and at most once per call; at most one
    timer is pending; and a pending timer is the one [timeout] names and
    carries the arguments of the most recent call. *)
Theorem debounce_safe (Args : Type) (events : list (Debounce.Event Args)) :
  let s := Debounce.run Args events (Debounce.initial Args) in
  Debounce.invoked Args s `sublist_of` Debounce.calls Args events
  ∧ (∀ id a, Debounce.pending Args s !! id = Some a →
             Debounce.timeout Args s = Some id
             ∧ last (Debounce.calls Args events) = Some a)
  ∧ (∀ id1 id2, is_Some (Debounce.pending Args s !! id1) →
                is_Some (Debounce.pending Args s !! id2) → id1 = id2).
Proof. apply DebounceFacts.run_safe. Qed.

Lemma debounce_safe_witness :
  let events :=
    [Debounce.Call string "resize 1"; Debounce.Call string "resize 2";
     Debounce.Fire string 1; Debounce.Fire string 2;
     Debounce.Call string "resize 3"] in
  let s := Debounce.run string events (Debounce.initial string) in
  Debounce.timeout string s = Some 3
  ∧ last (Debounce.calls string events) = Some "resize 3".
Proof.
  intros events s.
  destruct (debounce_safe string events) as (_ & Hlatest & _).
  apply (Hlatest 3 "resize 3"). by vm_compute.
Defined.

(** X27.  After any burst of calls with no timer callback in between,
    exactly one timer is pending; when it fires, [func] has been called
    exactly once, with the arguments of the last call of the burst, and
    no timer is left. *)
Theorem debounce_burst (Args : Type) (before : list Args) (a : Args) :
  let s :=
    Debounce.run Args (map (Debounce.Call Args) (before ++ [a]))
      (Debounce.initial Args) in
  ∃ id,
    Debounce.pending Args s !! id = Some a
    ∧ Debounce.invoked Args s = []
    ∧ Debounce.invoked Args (Debounce.fire Args id s) = [a]
    ∧ ∀ j, Debounce.pending Args (Debounce.fire Args id s) !! j = None.
Proof.
  intros s.
  destruct (DebounceFacts.run_calls before a) as (Hinvoked & id & Ht & Hlook).
  destruct (DebounceFacts.run_safe (map (Debounce.Call Args) (before ++ [a])))
    as (_ & _ & Hone).
  cbn zeta in *. fold s in Hinvoked, Ht, Hlook, Hone.
  exists id. split_and!; [done|done| |].
  - unfold Debounce.fire. rewrite Hlook, Ht. simpl. by rewrite Hinvoked.
  - intros j. unfold Debounce.fire. rewrite Hlook, Ht. simpl.
    destruct (decide (id = j)) as [<-|Hne]; [apply lookup_delete_eq|].
    rewrite !lookup_delete_ne by done.
    destruct (Debounce.pending Args s !! j) as [b|] eqn:Hj; [|done].
    destruct Hne. apply Hone; by eexists.
Qed.

(** ** Runs of the frame properties on the sample pages *)

Lemma switchLanguage_frame_witness :
  localStorage
    (switchLanguage (str "fr")
       (set_localStorage {[ "theme" := "dark" ]} loadedPage)) !! "theme"
  = Some "dark".
Proof.
  destruct (switchLanguage_frame (str "fr")
              (set_localStorage {[ "theme" := "dark" ]} loadedPage) eq_refl)
    as (_ & Hstorage).
  rewrite Hstorage by discriminate. by vm_compute.
Defined.


Lemma closeMobileNav_idempotent_witness :
  closeMobileNav barePage = (Normal, barePage).
Proof.
  apply (closeMobileNav_idempotent barePage). reflexivity.
Defined.
